(** * Douyin share-link extraction pipeline

    A shallow embedding of [DouyinVideoDownloader.get_video_info] and of the
    two Playwright helpers it calls (src/down_and_upload/Untitled-1.py),
    together with the properties of the fallback chain.

    Python [str] values are sequences of Unicode code points; they are
    modelled as lists of code points ([N]).  The HTTP session and the
    headless browser are collaborators: their observable answers are
    collected in a [World] record, and every call made to them is appended
    to an event log that is threaded through the code. *)

From Stdlib Require Import NArith List Bool String Ascii Lia Arith.
Import ListNotations.
Local Open Scope N_scope.
Local Open Scope list_scope.

(** ** Strings *)

Definition char := N.
Definition str := list char.

(** An ASCII literal of the source, as code points. *)
Definition lit (s : string) : str :=
  List.map N_of_ascii (list_ascii_of_string s).

Definition dquote : char := 34.
Definition squote : char := 39.
Definition newline : char := 10.
Definition slash : char := 47.

(** [strip_prefix p s]: the rest of [s] after the literal [p], when [s]
    starts with [p]. *)
Fixpoint strip_prefix (p s : str) : option str :=
  match p with
  | [] => Some s
  | a :: p' =>
      match s with
      | [] => None
      | b :: s' => if a =? b then strip_prefix p' s' else None
      end
  end.

Definition starts_with (p s : str) : bool :=
  match strip_prefix p s with Some _ => true | None => false end.

(** ** [str.replace]

    [s.replace(old, new)] scans [s] from the left and substitutes every
    non-overlapping occurrence of [old].  [replace_from] carries the number
    of characters of an occurrence that remain to be skipped. *)
Fixpoint replace_from (old new : str) (skip : nat) (s : str) : str :=
  match s with
  | [] => []
  | c :: t =>
      match skip with
      | S k => replace_from old new k t
      | O =>
          if starts_with old s
          then new ++ replace_from old new (List.length old - 1) t
          else c :: replace_from old new 0 t
      end
  end.

Definition replace (old new s : str) : str :=
  match old with
  | [] => new ++ flat_map (fun c => c :: new) s
  | _ :: _ => replace_from old new 0 s
  end.

(** The escape that the source decodes: a backslash followed by u002F,
    six characters. *)
Definition escaped_slash : str := Eval cbv in lit "\u002F".

(** The decoding applied to a matched URL: [replace] of the escape by a
    slash. *)
Definition slash_decode (s : str) : str := replace escaped_slash [slash] s.

(** [occurs p s]: [p] is a contiguous part of [s]. *)
Fixpoint occurs (p s : str) : bool :=
  starts_with p s ||
  match s with
  | [] => false
  | _ :: t => occurs p t
  end.

(** ** The regular expressions of the source

    Each pattern is embedded as an anchored matcher that returns group 1,
    and [re_search] tries the start positions from left to right, as
    [re.search] does. *)

(** [span f s]: the longest prefix of [s] whose characters satisfy [f],
    and what follows it. *)
Fixpoint span (f : char -> bool) (s : str) : str * str :=
  match s with
  | [] => ([], [])
  | c :: t =>
      if f c then let (a, b) := span f t in (c :: a, b) else ([], s)
  end.

(** [https?://] at the head of [s]: the scheme text and the rest. *)
Definition match_scheme (s : str) : option (str * str) :=
  match strip_prefix (lit "https://") s with
  | Some rest => Some (lit "https://", rest)
  | None =>
      match strip_prefix (lit "http://") s with
      | Some rest => Some (lit "http://", rest)
      | None => None
      end
  end.

Definition not_dquote (c : char) : bool := negb (c =? dquote).

(** The opening of a quoted JSON field: the key between double quotes, a
    colon, and the double quote that opens the value. *)
Definition field_opening (key : str) : str :=
  dquote :: key ++ dquote :: lit ":" ++ [dquote].

(** The quoted-field patterns of the source, anchored at the head of [s]:
    a double quote, the key, a double quote, a colon, a double quote, then
    the group [https?://] followed by the greedy class of every character
    but the double quote (one or more), then a double quote.  The greedy
    class takes the whole run of characters other than the double quote;
    the run must be non-empty and a double quote must follow it. *)
Definition match_quoted_url (key : str) (s : str) : option str :=
  match strip_prefix (field_opening key) s with
  | None => None
  | Some s1 =>
      match match_scheme s1 with
      | None => None
      | Some (scheme, s2) =>
          match span not_dquote s2 with
          | ((_ :: _) as run, q :: _) =>
              if q =? dquote then Some (scheme ++ run) else None
          | _ => None
          end
      end
  end.

(** The group [(.*?)] followed by a double quote: the lazy dot stops at
    the first double quote and cannot cross a line feed. *)
Fixpoint lazy_until_dquote (s : str) : option str :=
  match s with
  | [] => None
  | c :: t =>
      if c =? dquote then Some []
      else if c =? newline then None
      else match lazy_until_dquote t with
           | Some g => Some (c :: g)
           | None => None
           end
  end.

(** The title pattern (the quoted key desc, a colon, a double quote, the
    lazy group, a double quote) anchored at the head of [s]. *)
Definition match_desc (s : str) : option str :=
  match strip_prefix (field_opening (lit "desc")) s with
  | None => None
  | Some s1 => lazy_until_dquote s1
  end.

(** [\s] on a [str] pattern: the code points for which Python's
    [str.isspace] holds. *)
Definition is_space (c : char) : bool :=
  ((9 <=? c) && (c <=? 13)) || ((28 <=? c) && (c <=? 32))
  || (c =? 133) || (c =? 160) || (c =? 5760)
  || ((8192 <=? c) && (c <=? 8202))
  || (c =? 8232) || (c =? 8233) || (c =? 8239) || (c =? 8287)
  || (c =? 12288).

(** The negated class of the last candidate pattern: anything but
    white space, the double quote and the single quote. *)
Definition url_char (c : char) : bool :=
  negb (is_space c || (c =? dquote) || (c =? squote)).

Definition dot_mp4 : str := Eval cbv in lit ".mp4".

(** [last_mp4 run]: the longest prefix of [run] that ends with [.mp4] and
    has at least one character before it; this is where the greedy class
    followed by [\.mp4] stops after backtracking. *)
Fixpoint last_mp4 (run : str) : option str :=
  match run with
  | [] => None
  | c :: t =>
      match last_mp4 t with
      | Some g => Some (c :: g)
      | None => if starts_with dot_mp4 t then Some (c :: dot_mp4) else None
      end
  end.

(** The bare media URL heuristic anchored at the head of [s]: the group
    is [https?://v], one or more characters of the class above (greedy),
    and [\.mp4]. *)
Definition match_bare_mp4 (s : str) : option str :=
  match match_scheme s with
  | None => None
  | Some (scheme, s1) =>
      match strip_prefix (lit "v") s1 with
      | None => None
      | Some s2 =>
          match last_mp4 (fst (span url_char s2)) with
          | Some g => Some (scheme ++ lit "v" ++ g)
          | None => None
          end
      end
  end.

(** [re.search(pattern, s)], returning [m.group(1)]. *)
Fixpoint re_search (m : str -> option str) (s : str) : option str :=
  match m s with
  | Some g => Some g
  | None =>
      match s with
      | [] => None
      | _ :: t => re_search m t
      end
  end.

Definition search_quoted_url (key : string) (s : str) : option str :=
  re_search (match_quoted_url (lit key)) s.

(** ** The result record *)

(** The dataclass [VideoInfo]. *)
Record VideoInfo := mkVideoInfo {
  title : str;
  video_url : option str;
  success : bool;
  message : option str
}.

(** The default of the [title] field. *)
Definition default_title : str := [26410; 21629; 21517; 35270; 39057].

(** The message of the last [return] of [get_video_info]. *)
Definition exhausted_message : str :=
  [26410; 33021; 25552; 21462; 21040; 35270; 39057; 85; 82; 76; 65292;
   21487; 33021; 38656; 35201; 30331; 24405; 25110; 39029; 38754; 32467;
   26500; 24050; 21464; 26356].

(** Python truth of an [Optional[str]]: neither [None] nor empty. *)
Definition truthy (o : option str) : bool :=
  match o with
  | Some (_ :: _) => true
  | _ => false
  end.

(** ** Collaborators *)

(** Exceptions. [RequestException] stands for [requests.RequestException]
    and its subclasses and carries [str(exc)]; [OtherException] is any
    other subclass of [Exception]. *)
Inductive exn :=
| RequestException (msg : str)
| OtherException.

(** What a call gives: an exception or a value. *)
Definition answer (A : Type) : Type := (exn + A)%type.

(** The fields of [requests.Response] that the code reads. *)
Record Response := mkResponse {
  status_code : N;
  url : str;
  text : str
}.

(** The element handle returned by [page.query_selector]. *)
Record Element := mkElement {
  get_attribute_src : answer (option str)
}.

(** The page opened by [_extract_playaddr_with_playwright], with what
    [context.close()] and [browser.close()] answer. *)
Record DomPage := mkDomPage {
  wait_for_selector_video : answer unit;
  query_selector_video : answer (option Element);
  eval_on_selector_all_script : answer str;
  dom_content : answer str;
  context_close : answer unit;
  browser_close : answer unit
}.

(** The page opened by [_render_with_playwright]; [wait_for_load_state]
    is part of opening it.  [snap_browser_close] is what
    [browser.close()] answers. *)
Record SnapPage := mkSnapPage {
  snap_content : answer str;
  snap_browser_close : answer unit
}.

(** The stubbed collaborators: the answers of the HTTP session and of
    Playwright in its two uses.  Opening a page covers [sync_playwright],
    [launch], [new_context], [new_page] and [goto]. *)
Record World := mkWorld {
  session_get : str -> answer Response;
  dom_import : answer unit;
  dom_goto : str -> answer DomPage;
  snap_import : answer unit;
  snap_goto : str -> answer SnapPage
}.

Inductive mode := DomQuery | Snapshot.

(** The calls made to the collaborators. *)
Inductive event :=
| EvGet (u : str)
| EvImport (m : mode)
| EvOpen (m : mode) (u : str)
| EvWaitVideo
| EvQueryVideo
| EvGetSrc
| EvEvalScripts
| EvContent (m : mode)
| EvClose (m : mode)
| EvCloseContext.

(** ** Exceptions and the call log *)

Definition M (A : Type) : Type := list event -> answer A * list event.

Definition ret {A : Type} (a : A) : M A := fun log => (inr a, log).

Definition bind {A B : Type} (m : M A) (k : A -> M B) : M B :=
  fun log =>
    match m log with
    | (inl e, log') => (inl e, log')
    | (inr a, log') => k a log'
    end.

(** A call to a collaborator: it is logged, then it answers. *)
Definition call {A : Type} (ev : event) (r : answer A) : M A :=
  fun log => (r, log ++ [ev]).

(** [try: m  except <class>: h]. *)
Definition try_except {A : Type} (m : M A) (caught : exn -> bool)
    (h : exn -> M A) : M A :=
  fun log =>
    match m log with
    | (inl e, log') => if caught e then h e log' else (inl e, log')
    | (inr a, log') => (inr a, log')
    end.

Declare Scope py_scope.
Delimit Scope py_scope with py.
Notation "x <- m ;; k" := (bind m (fun x => k))
  (at level 61, m at next level, right associativity) : py_scope.
Notation "m ;; k" := (bind m (fun _ => k))
  (at level 61, right associativity) : py_scope.
Local Open Scope py_scope.

(** [except Exception] *)
Definition any_exception (e : exn) : bool := true.

(** [except requests.RequestException] *)
Definition request_exception (e : exn) : bool :=
  match e with
  | RequestException _ => true
  | OtherException => false
  end.

(** [str(exc)] *)
Definition str_of_exn (e : exn) : str :=
  match e with
  | RequestException msg => msg
  | OtherException => []
  end.

(** ** The downloader *)

(** [self.session.get(share_url, allow_redirects=True, timeout=10)];
    the status code of the response is not inspected. *)
Definition _get_final_response (w : World) (share_url : str) : M Response :=
  call (EvGet share_url) (session_get w share_url).

Definition _render_with_playwright (w : World) (u : str) : M (option str) :=
  imported <- try_except (call (EvImport Snapshot) (snap_import w) ;; ret true)
                any_exception (fun _ => ret false) ;;
  if imported : bool then
    try_except
      (page <- call (EvOpen Snapshot u) (snap_goto w u) ;;
       html <- call (EvContent Snapshot) (snap_content page) ;;
       call (EvClose Snapshot) (snap_browser_close page) ;;
       ret (Some html))
      any_exception (fun _ => ret None)
  else ret None.

(** The candidate patterns of the script scan, in the order of the
    source's list. *)
Definition candidate_patterns : list (str -> option str) :=
  [ match_quoted_url (lit "playAddr");
    match_quoted_url (lit "srcNoMark");
    match_quoted_url (lit "downloadAddr");
    match_bare_mp4 ].

(** The [for pat in ...] loop: the first pattern found gives the
    candidate, slash-decoded. *)
Fixpoint scan_candidates (pats : list (str -> option str))
    (scripts_text : str) : option str :=
  match pats with
  | [] => None
  | pat :: rest =>
      match re_search pat scripts_text with
      | Some g => Some (slash_decode g)
      | None => scan_candidates rest scripts_text
      end
  end.

Definition _extract_playaddr_with_playwright (w : World) (u : str)
    : M (option str) :=
  imported <- try_except (call (EvImport DomQuery) (dom_import w) ;; ret true)
                any_exception (fun _ => ret false) ;;
  if imported : bool then
    try_except
      (page <- call (EvOpen DomQuery u) (dom_goto w u) ;;
       from_video <-
         try_except
           (call EvWaitVideo (wait_for_selector_video page) ;;
            el <- call EvQueryVideo (query_selector_video page) ;;
            match el with
            | Some el =>
                src <- call EvGetSrc (get_attribute_src el) ;;
                if truthy src
                then call EvCloseContext (context_close page) ;;
                     call (EvClose DomQuery) (browser_close page) ;;
                     ret src
                else ret None
            | None => ret None
            end)
           any_exception (fun _ => ret None) ;;
       match from_video with
       | Some src => ret (Some src)
       | None =>
           scripts_text <-
             try_except
               (call EvEvalScripts (eval_on_selector_all_script page))
               any_exception
               (fun _ => call (EvContent DomQuery) (dom_content page)) ;;
           match scan_candidates candidate_patterns scripts_text with
           | Some candidate =>
               call EvCloseContext (context_close page) ;;
               call (EvClose DomQuery) (browser_close page) ;;
               ret (Some candidate)
           | None =>
               call EvCloseContext (context_close page) ;;
               call (EvClose DomQuery) (browser_close page) ;;
               ret None
           end
       end)
      any_exception (fun _ => ret None)
  else ret None.

(** The title taken from the body. *)
Definition title_of (html : str) : str :=
  match re_search match_desc html with
  | Some g => g
  | None => default_title
  end.

(** An object handed to [print]. *)
Inductive pyobj :=
| PStr (s : str)
| PInt (n : N).

(** The standard output: what [print] answers for its arguments, a value or the
    exception it raises (an encoding error, a closed pipe).  Printing is
    not a call to the session or to Playwright and is not logged. *)
Definition Stdout : Type := list pyobj -> answer unit.

Definition py_print (out : Stdout) (objects : list pyobj) : M unit :=
  fun log => (out objects, log).

(** [get_video_info], with its debug prints on the standard output
    [out]. *)
Definition get_video_info_printing (out : Stdout) (w : World)
    (share_url : str) : M VideoInfo :=
  fetched <-
    try_except
      (resp <- _get_final_response w share_url ;;
       py_print out
         [PStr (newline :: lit "[DEBUG] HTTP status:");
          PInt (status_code resp)] ;;
       py_print out [PStr (lit "[DEBUG] final URL:"); PStr (url resp)] ;;
       let snippet := firstn 3000 (text resp) in
       py_print out
         [PStr (lit "[DEBUG] HTML snippet (first 3000 chars):" ++ [newline])] ;;
       py_print out [PStr snippet] ;;
       ret (inr resp))
      request_exception
      (fun exc =>
         ret (inl (mkVideoInfo default_title None false
                     (Some (str_of_exn exc))))) ;;
  match fetched with
  | inl failed => ret failed
  | inr resp =>
      let html := text resp in
      let title := title_of html in
      match search_quoted_url "playAddr" html with
      | Some g => ret (mkVideoInfo title (Some (slash_decode g)) true None)
      | None =>
          play_addr <-
            try_except (_extract_playaddr_with_playwright w share_url)
              any_exception (fun _ => ret None) ;;
          if truthy play_addr
          then ret (mkVideoInfo title play_addr true None)
          else
            rendered <- _render_with_playwright w share_url ;;
            match (if truthy rendered
                   then match rendered with
                        | Some r => search_quoted_url "playAddr" r
                        | None => None
                        end
                   else None) with
            | Some g =>
                ret (mkVideoInfo title (Some (slash_decode g)) true None)
            | None =>
                ret (mkVideoInfo default_title None false
                       (Some exhausted_message))
            end
      end
  end.

(** A standard output that accepts whatever is printed. *)
Definition accepting : Stdout := fun _ => inr tt.

(** [get_video_info] on a standard output that accepts its debug
    prints. *)
Definition get_video_info (w : World) (share_url : str) : M VideoInfo :=
  get_video_info_printing accepting w share_url.

(** [extract]: the pipeline run from an empty call log. *)
Definition extract (w : World) (share_url : str)
    : answer VideoInfo * list event :=
  get_video_info w share_url [].

(** ** Vocabulary of the specification *)

(** An absolute http(s) URL as it can stand in a quoted field: one of the
    two schemes, at least one more character, and no double quote. *)
Definition absolute_http_url (u : str) : bool :=
  match strip_prefix (lit "http://") u, strip_prefix (lit "https://") u with
  | Some (_ :: _), _ => forallb not_dquote u
  | _, Some (_ :: _) => forallb not_dquote u
  | _, _ => false
  end.

(** The text of a title field: no double quote and no line feed. *)
Definition title_text (t : str) : bool :=
  forallb (fun c => negb (c =? dquote) && negb (c =? newline)) t.

(** [field_at opening ok body pre v post]: [body] holds, after [pre], the
    field opened by [opening] with the well-formed value [v]. *)
Definition field_at (opening : str) (ok : str -> bool)
    (body pre v post : str) : Prop :=
  body = pre ++ opening ++ v ++ dquote :: post /\ ok v = true.

(** No field of the same kind starts before [pre] ends. *)
Definition first_field (opening : str) (ok : str -> bool)
    (body pre : str) : Prop :=
  forall pre' v' post',
    field_at opening ok body pre' v' post' ->
    (List.length pre <= List.length pre')%nat.

Definition has_field (opening : str) (ok : str -> bool) (body : str) : Prop :=
  exists pre v post, field_at opening ok body pre v post.

Definition url_field_at (key : string) := field_at (field_opening (lit key)) absolute_http_url.
Definition first_url_field (key : string) := first_field (field_opening (lit key)) absolute_http_url.
Definition has_url_field (key : string) := has_field (field_opening (lit key)) absolute_http_url.

Definition desc_field_at := field_at (field_opening (lit "desc")) title_text.
Definition first_desc_field := first_field (field_opening (lit "desc")) title_text.
Definition has_desc_field := has_field (field_opening (lit "desc")) title_text.

(** [no_match_before m body n]: the anchored matcher [m] fails at each of
    the first [n] positions of [body]. *)
Fixpoint no_match_before (m : str -> option str) (body : str) (n : nat)
    {struct n} : bool :=
  match n with
  | O => true
  | S k =>
      match m body with
      | Some _ => false
      | None => match body with
                | [] => true
                | _ :: t => no_match_before m t k
                end
      end
  end.

(** The error taxonomy of the specification counts a response whose
    status is not 2xx among the fetch failures. *)
Definition fetch_failed_per_taxonomy (r : answer Response) : bool :=
  match r with
  | inl _ => true
  | inr resp => negb ((200 <=? status_code resp) && (status_code resp <? 300))
  end.

(** The render collaborator was called, in either mode. *)
Definition render_event (ev : event) : bool :=
  match ev with
  | EvGet _ => false
  | _ => true
  end.

(** Calls that belong to the script scan and to the snapshot rescan. *)
Definition script_scan_event (ev : event) : bool :=
  match ev with
  | EvEvalScripts | EvContent DomQuery => true
  | _ => false
  end.

Definition snapshot_event (ev : event) : bool :=
  match ev with
  | EvImport Snapshot | EvOpen Snapshot _ | EvContent Snapshot
  | EvClose Snapshot => true
  | _ => false
  end.

(** The DOM query stage obtains the [src] attribute [src] of a [video]
    element. *)
Definition dom_video_src (w : World) (u src : str) : Prop :=
  exists page el,
    dom_import w = inr tt /\ dom_goto w u = inr page /\
    wait_for_selector_video page = inr tt /\
    query_selector_video page = inr (Some el) /\
    get_attribute_src el = inr (Some src).

(** [context.close()] and [browser.close()] return. *)
Definition dom_closes (page : DomPage) : Prop :=
  context_close page = inr tt /\ browser_close page = inr tt.

(** The DOM query stage obtains the [src] attribute [src] of a [video]
    element and then closes the context and the browser. *)
Definition dom_video_src_closed (w : World) (u src : str) : Prop :=
  exists page el,
    dom_import w = inr tt /\ dom_goto w u = inr page /\
    wait_for_selector_video page = inr tt /\
    query_selector_video page = inr (Some el) /\
    get_attribute_src el = inr (Some src) /\
    dom_closes page.

(** The DOM query stage opens the page and finds no [video] element:
    waiting for the selector fails, or the query returns nothing. *)
Definition dom_no_video (page : DomPage) : Prop :=
  (exists e, wait_for_selector_video page = inl e) \/
  (wait_for_selector_video page = inr tt /\
   query_selector_video page = inr None).

(** Playwright cannot be used in one mode: the import fails, or the
    browser does not start. *)
Definition dom_unavailable (w : World) (u : str) : Prop :=
  (exists e, dom_import w = inl e) \/ (exists e, dom_goto w u = inl e).

Definition snapshot_unavailable (w : World) (u : str) : Prop :=
  (exists e, snap_import w = inl e) \/ (exists e, snap_goto w u = inl e).

(** ** Sample collaborators *)

Definition quoted_field (key value : string) : str :=
  field_opening (lit key) ++ lit value ++ [dquote].

(** Playwright is not installed. *)
Definition no_playwright (get : str -> answer Response) : World :=
  mkWorld get (inl OtherException) (fun _ => inl OtherException)
    (inl OtherException) (fun _ => inl OtherException).

(** A page whose [video] element has the given [src] and whose scripts
    hold the given text. *)
Definition page_with_video (src scripts : str) : DomPage :=
  mkDomPage (inr tt) (inr (Some (mkElement (inr (Some src)))))
    (inr scripts) (inr scripts) (inr tt) (inr tt).

(** A page without a [video] element: the wait times out. *)
Definition page_without_video (scripts : str) : DomPage :=
  mkDomPage (inl OtherException) (inr None) (inr scripts) (inr scripts)
    (inr tt) (inr tt).

Definition with_dom_page (get : str -> answer Response) (page : DomPage)
    : World :=
  mkWorld get (inr tt) (fun _ => inr page)
    (inl OtherException) (fun _ => inl OtherException).

Definition share : str := Eval cbv in lit "https://v.douyin.com/abc/".

(** The collaborators of [w], with the HTTP session answering [r]. *)
Definition answering (w : World) (r : answer Response) : World :=
  mkWorld (fun _ => r) (dom_import w) (dom_goto w) (snap_import w)
    (snap_goto w).

(** The text handed to the script scan: the joined text of the script
    elements, or the page content when that evaluation raises. *)
Definition scripts_text_of (page : DomPage) (t : str) : Prop :=
  eval_on_selector_all_script page = inr t \/
  ((exists e, eval_on_selector_all_script page = inl e) /\
   dom_content page = inr t).

(** A bare media URL: one of the two schemes, the letter v, one or more
    characters that are neither white space nor quotes, and the ending
    [.mp4]. *)
Definition mp4_url (g : str) : Prop :=
  exists scheme mid,
    (scheme = lit "http://" \/ scheme = lit "https://") /\
    mid <> [] /\ forallb url_char mid = true /\
    g = scheme ++ lit "v" ++ mid ++ lit ".mp4".

(** [g] is the longest bare media URL at the head of [s]. *)
Definition longest_mp4_url (s g : str) : Prop :=
  mp4_url g /\ (exists rest, s = g ++ rest) /\
  forall g' rest',
    mp4_url g' -> s = g' ++ rest' ->
    (List.length g' <= List.length g)%nat.

(** [g] is the bare media URL of the text [t]: the longest one at the
    leftmost place of [t] where one starts. *)
Definition first_bare_mp4 (t g : str) : Prop :=
  exists before s,
    t = before ++ s /\ longest_mp4_url s g /\
    forall before' g' rest',
      t = before' ++ g' ++ rest' -> mp4_url g' ->
      (List.length before <= List.length before')%nat.

(** [sep.join(parts)] *)
Fixpoint join (sep : str) (parts : list str) : str :=
  match parts with
  | [] => []
  | p :: rest =>
      match rest with
      | [] => p
      | _ :: _ => p ++ sep ++ join sep rest
      end
  end.

(** [parts] are the pieces between the escaped slashes of a text: none
    of them holds the escape. *)
Definition escape_free (parts : list str) : Prop :=
  Forall (fun p => occurs escaped_slash p = false) parts.

(** The candidate that the priority order of the script scan selects in
    the text [t]: the first play address field; failing that, the first
    source-without-watermark field; failing that, the first download
    address field; failing that, the bare media URL. *)
Inductive script_candidate (t : str) : str -> Prop :=
| cand_playAddr pre u post :
    url_field_at "playAddr" t pre u post ->
    first_url_field "playAddr" t pre ->
    script_candidate t u
| cand_srcNoMark pre u post :
    ~ has_url_field "playAddr" t ->
    url_field_at "srcNoMark" t pre u post ->
    first_url_field "srcNoMark" t pre ->
    script_candidate t u
| cand_downloadAddr pre u post :
    ~ has_url_field "playAddr" t ->
    ~ has_url_field "srcNoMark" t ->
    url_field_at "downloadAddr" t pre u post ->
    first_url_field "downloadAddr" t pre ->
    script_candidate t u
| cand_bare_mp4 g :
    ~ has_url_field "playAddr" t ->
    ~ has_url_field "srcNoMark" t ->
    ~ has_url_field "downloadAddr" t ->
    first_bare_mp4 t g ->
    script_candidate t g.

(** A page body with a title and a play address whose slashes are
    escaped. *)
Definition body_static : str :=
  lit "{" ++ quoted_field "desc" "clip" ++ lit "," ++
  quoted_field "playAddr" "https://v.example.com\u002Fvideo\u002Fa.mp4" ++
  lit "}".

(** A page body with a title only. *)
Definition body_plain : str :=
  lit "{" ++ quoted_field "desc" "clip" ++ lit "}".

Definition ok_response (body : str) : answer Response :=
  inr (mkResponse 200 share body).

(** The connection fails. *)
Definition refused_world : World :=
  no_playwright
    (fun _ => inl (RequestException (lit "Connection refused"))).

(** The server answers 404 with a body that holds a play address. *)
Definition not_found_world : World :=
  no_playwright (fun _ => inr (mkResponse 404 share body_static)).

Definition static_world : World :=
  no_playwright (fun _ => ok_response body_static).

Definition plain_world : World :=
  no_playwright (fun _ => ok_response body_plain).

(** The rendered page shows a [video] element. *)
Definition video_world : World :=
  with_dom_page (fun _ => ok_response body_plain)
    (page_with_video (lit "https://v.example.com/a.mp4") []).

(** The [src] attribute of the [video] element holds escaped slashes. *)
Definition escaped_src : str :=
  Eval cbv in lit "https://v.example.com\u002Fvideo\u002Fa.mp4".

Definition escaped_video_world : World :=
  with_dom_page (fun _ => ok_response body_plain)
    (page_with_video escaped_src []).

(** No [video] element, and a download address in a script. *)
Definition download_scripts : str :=
  lit "window.data = {" ++
  quoted_field "downloadAddr" "https://x/y.mp4" ++ lit "};".

Definition script_world : World :=
  with_dom_page (fun _ => ok_response body_plain)
    (page_without_video download_scripts).

(** A URL with escapes other than the one that is decoded. *)
Definition other_escapes : str :=
  Eval cbv in lit "https://v.example.com\/a\u002fb.mp4?x=1\u0026y=2".

(** A body whose play address holds those escapes. *)
Definition body_other_escapes : str :=
  lit "{" ++ field_opening (lit "playAddr") ++ other_escapes ++ dquote :: lit "}".

Definition other_escapes_world : World :=
  no_playwright (fun _ => ok_response body_other_escapes).

(** The result of the exhausted pipeline. *)
Definition exhausted_result : VideoInfo :=
  mkVideoInfo default_title None false (Some exhausted_message).

Arguments slash_decode : simpl never.
Arguments re_search : simpl never.
Arguments search_quoted_url : simpl never.
Arguments title_of : simpl never.
Arguments scan_candidates : simpl never.

(** ** [extract_video_id] *)

(** [\d] on a [str] pattern matches the decimal digits of every script
    (Unicode category Nd).  The ten digits of a script are consecutive;
    these are the code points of the zeros (Unicode 14). *)
Definition decimal_zeros : list N :=
  [48; 1632; 1776; 1984; 2406; 2534; 2662; 2790; 2918; 3046; 3174; 3302;
   3430; 3558; 3664; 3792; 3872; 4160; 4240; 6112; 6160; 6470; 6608; 6784;
   6800; 6992; 7088; 7232; 7248; 42528; 43216; 43264; 43472; 43504; 43600;
   44016; 65296; 66720; 68912; 69734; 69872; 69942; 70096; 70384; 70736;
   70864; 71248; 71360; 71472; 71904; 72016; 72784; 73040; 73120; 92768;
   92864; 93008; 120782; 120792; 120802; 120812; 120822; 123200; 123632;
   125264; 130032].

Definition is_digit (c : char) : bool :=
  existsb (fun z => (z <=? c) && (c <=? z + 9)) decimal_zeros.

(** A literal prefix followed by the group [(\d+)], anchored at the head
    of [s]: the greedy class takes the whole run of digits, which must
    not be empty. *)
Definition match_digits (prefix s : str) : option str :=
  match strip_prefix prefix s with
  | None => None
  | Some s1 =>
      match fst (span is_digit s1) with
      | [] => None
      | c :: run => Some (c :: run)
      end
  end.

(** The [patterns] list of [extract_video_id]. *)
Definition id_patterns : list (str -> option str) :=
  [ match_digits (lit "/video/");
    match_digits (lit "/share/video/");
    match_digits (lit "video_id=") ].

(** The [for p in patterns] loop: group 1 of the first pattern found. *)
Fixpoint first_group (pats : list (str -> option str)) (s : str)
    : option str :=
  match pats with
  | [] => None
  | p :: rest =>
      match re_search p s with
      | Some g => Some g
      | None => first_group rest s
      end
  end.

Definition extract_video_id (url : str) : option str :=
  first_group id_patterns url.

(** [digits_at prefix s before ds rest]: in [s], after [before], stands
    [prefix] followed by the non-empty run of digits [ds], which ends
    where [rest] begins. *)
Definition digits_at (prefix s before ds rest : str) : Prop :=
  s = before ++ prefix ++ ds ++ rest /\
  ds <> [] /\ forallb is_digit ds = true /\
  match rest with [] => True | c :: _ => is_digit c = false end.

(** [prefix] is not followed by a digit anywhere in [s]. *)
Definition no_digits_after (prefix s : str) : Prop :=
  forall before c rest,
    s = before ++ prefix ++ c :: rest -> is_digit c = false.

(** No digit follows [prefix] at a position of [s] that lies before the
    end of [before]. *)
Definition first_digits (prefix s before : str) : Prop :=
  forall b' c r',
    s = b' ++ prefix ++ c :: r' -> is_digit c = true ->
    (List.length before <= List.length b')%nat.

(** ** Vocabulary for the further properties *)

(** What the four debug prints of [get_video_info] hand to [print], in
    order. *)
Definition debug_output (resp : Response) : list (list pyobj) :=
  [ [PStr (newline :: lit "[DEBUG] HTTP status:"); PInt (status_code resp)];
    [PStr (lit "[DEBUG] final URL:"); PStr (url resp)];
    [PStr (lit "[DEBUG] HTML snippet (first 3000 chars):" ++ [newline])];
    [PStr (firstn 3000 (text resp))] ].

(** The exception of the first print that raises, if one does. *)
Fixpoint first_exception (out : Stdout) (items : list (list pyobj))
    : option exn :=
  match items with
  | [] => None
  | objects :: rest =>
      match out objects with
      | inl e => Some e
      | inr _ => first_exception out rest
      end
  end.

(** The DOM query stage ends without a usable address. *)
Definition dom_yields_nothing (w : World) (u : str) : Prop :=
  exists d,
    fst (_extract_playaddr_with_playwright w u []) = inr d /\
    truthy d = false.

(** The [video] element is there but gives no usable [src]: the attribute
    is missing or empty, or reading it raises. *)
Definition video_without_src (page : DomPage) : Prop :=
  wait_for_selector_video page = inr tt /\
  exists el,
    query_selector_video page = inr (Some el) /\
    ((exists e, get_attribute_src el = inl e) \/
     get_attribute_src el = inr None \/
     get_attribute_src el = inr (Some [])).

(** The number of pages opened in one mode. *)
Fixpoint opens (m : mode) (evs : list event) : nat :=
  match evs with
  | [] => O
  | EvOpen DomQuery _ :: rest =>
      match m with DomQuery => S (opens m rest) | Snapshot => opens m rest end
  | EvOpen Snapshot _ :: rest =>
      match m with Snapshot => S (opens m rest) | DomQuery => opens m rest end
  | _ :: rest => opens m rest
  end.

(** After the fetch, [evs] holds no further fetch and opens pages at [u]
    only. *)
Fixpoint render_calls_at (u : str) (evs : list event) : Prop :=
  match evs with
  | [] => True
  | EvGet _ :: _ => False
  | EvOpen _ u' :: rest => u' = u /\ render_calls_at u rest
  | _ :: rest => render_calls_at u rest
  end.

Definition has_scheme (u : str) : bool :=
  starts_with (lit "http://") u || starts_with (lit "https://") u.

(** Playwright fails in DOM-query mode and renders a snapshot that holds
    a play address. *)
Definition snapshot_world : World :=
  mkWorld (fun _ => ok_response body_plain)
    (inl OtherException) (fun _ => inl OtherException)
    (inr tt) (fun _ => inr (mkSnapPage (inr body_static) (inr tt))).

(** A page whose [video] element has no [src] attribute. *)
Definition page_with_bare_video (scripts : str) : DomPage :=
  mkDomPage (inr tt) (inr (Some (mkElement (inr None))))
    (inr scripts) (inr scripts) (inr tt) (inr tt).

Definition bare_video_world : World :=
  with_dom_page (fun _ => ok_response body_plain)
    (page_with_bare_video download_scripts).

(** ** Downloading and the interactive shell

    [download_video], [safe_download_example] and [main] also use the file
    system, the clock and the standard input.  Their state is a [Machine];
    what the operating system and the HTTP session answer is a [Host]. *)

From Stdlib Require Import ZArith DecimalString.

Definition bytes := list Byte.byte.

Fixpoint str_eqb (a b : str) : bool :=
  match a, b with
  | [], [] => true
  | x :: a', y :: b' => (x =? y) && str_eqb a' b'
  | _, _ => false
  end.

(** [str.strip()]: white space is removed at both ends. *)
Fixpoint lstrip (s : str) : str :=
  match s with
  | [] => []
  | c :: t => if is_space c then lstrip t else s
  end.

Definition strip (s : str) : str := rev (lstrip (rev (lstrip s))).

(** The text of an [int] in an f-string. *)
Definition format_int (z : Z) : str :=
  lit (NilZero.string_of_int (Z.to_int z)).

(** The streamed response [r] of [download_video].  [content_length]
    stands for [int(r.headers.get('content-length', 0))], which raises
    when the header is not a number; [chunks] is what
    [r.iter_content(chunk_size=8192)] yields and [chunks_end] the
    exception that ends the iteration, if any. *)
Record Stream := mkStream {
  raise_for_status : answer unit;
  content_length : answer Z;
  content : answer bytes;
  chunks : list bytes;
  chunks_end : option exn
}.

(** The answers of the operating system, of the session for a streamed
    request, and the library functions whose tables are not in the
    source.  [clock n] is [int(time.time())] at the [n]-th reading. *)
Record Host := mkHost {
  makedirs : str -> answer unit;
  clock : nat -> Z;
  path_join : str -> str -> str;
  stream_get : option str -> answer Stream;
  open_wb : str -> answer unit;
  lower : str -> str
}.

(** The state: the calls made by the extraction, the lines that [input]
    will read, the files written (newest binding first), the directories
    passed to [os.makedirs] and the URLs requested for download (newest
    first), and the number of clock readings. *)
Record Machine := mkMachine {
  calls : list event;
  stdin : list str;
  files : list (str * bytes);
  made : list str;
  requested : list (option str);
  clock_reads : nat
}.

Definition IO (A : Type) : Type := Machine -> answer A * Machine.

Definition io_ret {A : Type} (a : A) : IO A := fun s => (inr a, s).

Definition io_bind {A B : Type} (m : IO A) (k : A -> IO B) : IO B :=
  fun s =>
    match m s with
    | (inl e, s') => (inl e, s')
    | (inr a, s') => k a s'
    end.

Definition io_raise {A : Type} (e : exn) : IO A := fun s => (inl e, s).

(** The value or the exception of an answer. *)
Definition io_answer {A : Type} (r : answer A) : IO A := fun s => (r, s).

Definition io_try {A : Type} (m : IO A) (caught : exn -> bool)
    (h : exn -> IO A) : IO A :=
  fun s =>
    match m s with
    | (inl e, s') => if caught e then h e s' else (inl e, s')
    | (inr a, s') => (inr a, s')
    end.

(** The extraction, run on the call log of the machine. *)
Definition io_extract {A : Type} (m : M A) : IO A :=
  fun s =>
    let (r, log) := m (calls s) in
    (r, mkMachine log (stdin s) (files s) (made s) (requested s)
          (clock_reads s)).

Declare Scope io_scope.
Delimit Scope io_scope with io.
Notation "x <- m ;; k" := (io_bind m (fun x => k))
  (at level 61, m at next level, right associativity) : io_scope.
Notation "m ;; k" := (io_bind m (fun _ => k))
  (at level 61, right associativity) : io_scope.

(** [input(prompt)]: the next line, or [EOFError]. *)
Definition input : IO str :=
  fun s =>
    match stdin s with
    | [] => (inl OtherException, s)
    | line :: rest =>
        (inr line,
         mkMachine (calls s) rest (files s) (made s) (requested s)
           (clock_reads s))
    end.

(** [os.makedirs(save_path, exist_ok=True)] *)
Definition os_makedirs (h : Host) (save_path : str) : IO unit :=
  fun s =>
    (makedirs h save_path,
     mkMachine (calls s) (stdin s) (files s) (save_path :: made s)
       (requested s) (clock_reads s)).

(** [int(time.time())] *)
Definition time_time (h : Host) : IO Z :=
  fun s =>
    (inr (clock h (clock_reads s)),
     mkMachine (calls s) (stdin s) (files s) (made s) (requested s)
       (S (clock_reads s))).

(** [self.session.get(video_url, stream=True, timeout=30)] *)
Definition session_get_stream (h : Host) (video_url : option str)
    : IO Stream :=
  fun s =>
    (stream_get h video_url,
     mkMachine (calls s) (stdin s) (files s) (made s)
       (video_url :: requested s) (clock_reads s)).

(** [open(filepath, 'wb')]: the file is created or emptied. *)
Definition open_file (h : Host) (filepath : str) : IO unit :=
  fun s =>
    match open_wb h filepath with
    | inl e => (inl e, s)
    | inr tt =>
        (inr tt,
         mkMachine (calls s) (stdin s) ((filepath, []) :: files s) (made s)
           (requested s) (clock_reads s))
    end.

(** The content of a file: that of its newest binding. *)
Fixpoint read_file (filepath : str) (fs : list (str * bytes))
    : option bytes :=
  match fs with
  | [] => None
  | (p, c) :: rest => if str_eqb p filepath then Some c else read_file filepath rest
  end.

Fixpoint append_file (filepath : str) (data : bytes)
    (fs : list (str * bytes)) : list (str * bytes) :=
  match fs with
  | [] => [(filepath, data)]
  | (p, c) :: rest =>
      if str_eqb p filepath then (p, c ++ data) :: rest
      else (p, c) :: append_file filepath data rest
  end.

(** [f.write(data)]; writing is taken to succeed. *)
Definition write (filepath : str) (data : bytes) : IO unit :=
  fun s =>
    (inr tt,
     mkMachine (calls s) (stdin s) (append_file filepath data (files s))
       (made s) (requested s) (clock_reads s)).

(** The [for chunk in r.iter_content(...)] loop; the result is the final
    value of [downloaded]. *)
Fixpoint write_chunks (filepath : str) (cs : list bytes) (downloaded : N)
    : IO N :=
  match cs with
  | [] => io_ret downloaded
  | chunk :: rest =>
      match chunk with
      | [] => write_chunks filepath rest downloaded
      | _ :: _ =>
          (write filepath chunk ;;
           write_chunks filepath rest
             (downloaded + N.of_nat (List.length chunk)))%io
      end
  end.

Definition download_video (h : Host) (video_url : option str)
    (save_path : str) : IO (option str) :=
  (os_makedirs h save_path ;;
   t <- time_time h ;;
   let filename := lit "video_" ++ format_int t ++ lit ".mp4" in
   let filepath := path_join h save_path filename in
   io_try
     (r <- session_get_stream h video_url ;;
      io_answer (raise_for_status r) ;;
      total <- io_answer (content_length r) ;;
      open_file h filepath ;;
      (if (total =? 0)%Z
       then data <- io_answer (content r) ;; write filepath data
       else write_chunks filepath (chunks r) 0 ;;
            match chunks_end r with
            | Some e => io_raise e
            | None => io_ret tt
            end) ;;
      io_ret (Some filepath))
     request_exception
     (fun _ => io_ret None))%io.

Definition safe_download_example (h : Host) (w : World) (share_url : str)
    : IO bool :=
  (info <- io_extract (get_video_info w share_url) ;;
   if negb (success info) then io_ret false
   else
     line <- input ;;
     let ans := lower h (strip line) in
     if negb (str_eqb ans (lit "y")) then io_ret false
     else
       line' <- input ;;
       let save_path :=
         match strip line' with
         | [] => lit "downloads"
         | c :: p => c :: p
         end in
       result <- download_video h (video_url info) save_path ;;
       if truthy result then io_ret true else io_ret false)%io.

(** The [while True] loop of [main], for at most [fuel] turns.  [None]
    says that the turns ran out; [Some tt] that the loop was left by
    [break]. *)
Fixpoint main_loop (fuel : nat) (h : Host) (w : World) : IO (option unit) :=
  match fuel with
  | O => io_ret None
  | S k =>
      (line <- input ;;
       let choice := strip line in
       if str_eqb choice (lit "1") then
         line' <- input ;;
         let share_url := strip line' in
         match share_url with
         | [] => main_loop k h w
         | _ :: _ => safe_download_example h w share_url ;; main_loop k h w
         end
       else if str_eqb choice (lit "2") then main_loop k h w
       else if str_eqb choice (lit "3") then io_ret (Some tt)
       else main_loop k h w)%io
  end.

(** [main()], with as many turns as there are lines to read and one
    more. *)
Definition main (h : Host) (w : World) : IO (option unit) :=
  fun s => main_loop (S (List.length (stdin s))) h w s.

(** The machine before anything ran, with the given input. *)
Definition boot (lines : list str) : Machine :=
  mkMachine [] lines [] [] [] O.

(** The path that [download_video] writes to at the [n]-th clock
    reading. *)
Definition download_path (h : Host) (save_path : str) (n : nat) : str :=
  path_join h save_path
    (lit "video_" ++ format_int (clock h n) ++ lit ".mp4").

(** The bytes that the response delivers in full: its [content] when the
    announced length is zero or absent, else its chunks, provided the
    iteration ends without an exception. *)
Definition received (r : Stream) (total : Z) : option bytes :=
  if (total =? 0)%Z then
    match content r with
    | inr data => Some data
    | inl _ => None
    end
  else
    match chunks_end r with
    | None => Some (List.concat (chunks r))
    | Some _ => None
    end.

(** The bytes that reached the file when the transfer broke off with a
    [RequestException]. *)
Definition interrupted (r : Stream) (total : Z) : option bytes :=
  if (total =? 0)%Z then
    match content r with
    | inl (RequestException _) => Some []
    | _ => None
    end
  else
    match chunks_end r with
    | Some (RequestException _) => Some (List.concat (chunks r))
    | _ => None
    end.

(** The [video] element has a [src], but [context.close()] raises. *)
Definition close_fails_video_world : World :=
  with_dom_page (fun _ => ok_response body_plain)
    (mkDomPage (inr tt)
       (inr (Some (mkElement (inr (Some (lit "https://v.example.com/a.mp4"))))))
       (inr []) (inr []) (inl OtherException) (inr tt)).

(** No [video] element, a download address in a script, and
    [browser.close()] raises. *)
Definition close_fails_script_world : World :=
  with_dom_page (fun _ => ok_response body_plain)
    (mkDomPage (inl OtherException) (inr None) (inr download_scripts)
       (inr download_scripts) (inr tt) (inl OtherException)).

(** A download address whose path slash is escaped. *)
Definition escaped_download : str :=
  Eval cbv in lit "https://x\u002Fy.mp4".

Definition escaped_download_scripts : str :=
  lit "window.data = {" ++ field_opening (lit "downloadAddr") ++
  escaped_download ++ dquote :: lit "};".

Definition escaped_script_world : World :=
  with_dom_page (fun _ => ok_response body_plain)
    (page_without_video escaped_download_scripts).

(** A bare media URL whose path slash is escaped, followed by other
    text. *)
Definition escaped_bare : str :=
  Eval cbv in lit "https://v.x\u002Fa.mp4".

Definition bare_scripts : str := escaped_bare ++ lit " is the address".

Definition bare_script_world : World :=
  with_dom_page (fun _ => ok_response body_plain)
    (page_without_video bare_scripts).

(** The connection fails with an exception that has no text. *)
Definition silent_failure_world : World :=
  no_playwright (fun _ => inl (RequestException [])).

(** A response that announces no length and delivers [data]. *)
Definition plain_stream (data : bytes) : Stream :=
  mkStream (inr tt) (inr 0%Z) (inr data) [data] None.

(** A response that announces its length and delivers the chunks [cs],
    after which the iteration ends with [fin]. *)
Definition chunked_stream (cs : list bytes) (fin : option exn) : Stream :=
  mkStream (inr tt) (inr (Z.of_nat (List.length (List.concat cs))))
    (inr (List.concat cs)) cs fin.

(** Lower-casing of the ASCII letters, which is what [str.lower] does
    on ASCII text. *)
Definition ascii_lower (a : str) : str :=
  List.map (fun c => if (65 <=? c) && (c <=? 90) then c + 32 else c) a.

(** A host on which directories and files can be made, with a clock that
    stands still and the session answering [get]. *)
Definition still_host (get : option str -> answer Stream) : Host :=
  mkHost (fun _ => inr tt) (fun _ => 1730000000%Z)
    (fun a b => a ++ lit "/" ++ b) get (fun _ => inr tt) ascii_lower.

(** A session that serves one byte for every URL. *)
Definition one_byte (v : option str) : answer Stream :=
  inr (plain_stream [Byte.x2a]).

Definition media : option str := Some (lit "https://x/y.mp4").

Definition two_chunks : list bytes :=
  [[Byte.x00; Byte.x01]; []; [Byte.x02]].

(** A session that serves two different videos. *)
Definition two_videos (v : option str) : answer Stream :=
  match v with
  | Some u =>
      if str_eqb u (lit "https://x/y.mp4")
      then inr (chunked_stream two_chunks None)
      else inr (plain_stream [Byte.xff])
  | None => inl (RequestException (lit "Invalid URL"))
  end.

(** The machine after the extraction left the call log [log]. *)
Definition with_calls (s : Machine) (log : list event) : Machine :=
  mkMachine log (stdin s) (files s) (made s) (requested s) (clock_reads s).

(** The machine after [input] read a line. *)
Definition with_stdin (s : Machine) (lines : list str) : Machine :=
  mkMachine (calls s) lines (files s) (made s) (requested s) (clock_reads s).

(** [input(...).strip() or 'downloads'] *)
Definition chosen_directory (line : str) : str :=
  match strip line with
  | [] => lit "downloads"
  | c :: p => c :: p
  end.

(** Nothing outside the call log and the input has changed. *)
Definition untouched (s s' : Machine) : Prop :=
  files s' = files s /\ made s' = made s /\ requested s' = requested s /\
  clock_reads s' = clock_reads s.

(** A standard output that was closed: every [print] raises
    [ValueError], which is not a [RequestException]. *)
Definition closed_stdout : Stdout := fun _ => inl OtherException.

(** * Properties *)

(** ** The model on concrete texts *)

Example slash_decode_sample :
  slash_decode escaped_src = lit "https://v.example.com/video/a.mp4".
Proof. vm_compute. reflexivity. Qed.

Example slash_decode_lower_case :
  slash_decode (lit "a\u002fb\/c") = lit "a\u002fb\/c".
Proof. vm_compute. reflexivity. Qed.

Example bare_mp4_backtracks :
  re_search match_bare_mp4 (lit "see http://vfoo.mp4.bar.mp4x.mp3 end") =
  Some (lit "http://vfoo.mp4.bar.mp4").
Proof. vm_compute. reflexivity. Qed.

Example bare_mp4_needs_a_character :
  re_search match_bare_mp4 (lit "http://v.mp4 https://v1.mp4") =
  Some (lit "https://v1.mp4").
Proof. vm_compute. reflexivity. Qed.

Example escaped_scheme_is_not_matched :
  search_quoted_url "playAddr"
    (quoted_field "playAddr" "https:\u002F\u002Fv.example.com") = None.
Proof. vm_compute. reflexivity. Qed.

Example title_stops_at_line_feed :
  title_of (field_opening (lit "desc") ++ lit "a" ++ newline :: lit "b" ++
            dquote :: quoted_field "desc" "clip") = lit "clip".
Proof. vm_compute. reflexivity. Qed.

(** ** Prefixes and runs *)

Lemma strip_prefix_app (p s : str) : strip_prefix p (p ++ s) = Some s.
Proof.
  induction p as [|a p IH]; simpl; [reflexivity|].
  now rewrite N.eqb_refl.
Qed.

Lemma strip_prefix_Some (p s r : str) :
  strip_prefix p s = Some r -> s = p ++ r.
Proof.
  revert s; induction p as [|a p IH]; intros s H; simpl in *.
  - congruence.
  - destruct s as [|b s]; [discriminate|].
    destruct (N.eqb_spec a b) as [->|]; [|discriminate].
    now rewrite (IH _ H).
Qed.

Lemma starts_with_true (p s : str) :
  starts_with p s = true -> exists r, s = p ++ r.
Proof.
  unfold starts_with. destruct (strip_prefix p s) as [r|] eqn:E; [|discriminate].
  intros _. exists r. now apply strip_prefix_Some.
Qed.

Lemma starts_with_app (p s : str) : starts_with p (p ++ s) = true.
Proof. unfold starts_with. now rewrite strip_prefix_app. Qed.

Lemma span_app (f : char -> bool) (a : str) (c : char) (b : str) :
  forallb f a = true -> f c = false -> span f (a ++ c :: b) = (a, c :: b).
Proof.
  intros Ha Hc. induction a as [|x a IH]; simpl in *.
  - now rewrite Hc.
  - apply andb_prop in Ha as [Hx Ha]. now rewrite Hx, (IH Ha).
Qed.

Lemma span_spec (f : char -> bool) (s a b : str) :
  span f s = (a, b) ->
  s = a ++ b /\ forallb f a = true /\
  match b with [] => True | c :: _ => f c = false end.
Proof.
  revert a b; induction s as [|x s IH]; intros a b H; simpl in H.
  - inversion H; subst. now repeat split.
  - destruct (f x) eqn:Hx.
    + destruct (span f s) as [a' b'] eqn:E. inversion H; subst.
      destruct (IH _ _ eq_refl) as (-> & Ha & Hb).
      simpl. rewrite Hx, Ha. now repeat split.
    + inversion H; subst. simpl. now repeat split.
Qed.

(** ** The anchored matchers against the fields they describe *)

Lemma match_scheme_spec (s scheme rest : str) :
  match_scheme s = Some (scheme, rest) ->
  s = scheme ++ rest /\ (scheme = lit "http://" \/ scheme = lit "https://").
Proof.
  unfold match_scheme.
  destruct (strip_prefix (lit "https://") s) as [r|] eqn:E1.
  - intros H; inversion H; subst. apply strip_prefix_Some in E1. auto.
  - destruct (strip_prefix (lit "http://") s) as [r|] eqn:E2; [|discriminate].
    intros H; inversion H; subst. apply strip_prefix_Some in E2. auto.
Qed.

Lemma absolute_http_url_inv (u : str) :
  absolute_http_url u = true ->
  exists scheme rest,
    u = scheme ++ rest /\ rest <> [] /\ forallb not_dquote rest = true /\
    forall tl, match_scheme (u ++ tl) = Some (scheme, rest ++ tl).
Proof.
  unfold absolute_http_url.
  destruct (strip_prefix (lit "http://") u) as [r1|] eqn:E1.
  - apply strip_prefix_Some in E1. subst u.
    destruct r1 as [|c r1].
    + cbn. discriminate.
    + intros H. exists (lit "http://"), (c :: r1).
      assert (Hf : forallb not_dquote (c :: r1) = true).
      { rewrite forallb_app in H. now apply andb_prop in H. }
      split; [reflexivity|]. split; [discriminate|]. split; [exact Hf|].
      intros tl. unfold match_scheme. rewrite <- app_assoc.
      rewrite (strip_prefix_app (lit "http://")).
      replace (strip_prefix (lit "https://") (lit "http://" ++ (c :: r1) ++ tl))
        with (@None str) by reflexivity.
      reflexivity.
  - destruct (strip_prefix (lit "https://") u) as [r2|] eqn:E2; [|discriminate].
    apply strip_prefix_Some in E2. subst u.
    destruct r2 as [|c r2]; [discriminate|].
    intros H. exists (lit "https://"), (c :: r2).
    assert (Hf : forallb not_dquote (c :: r2) = true).
    { rewrite forallb_app in H. now apply andb_prop in H. }
    split; [reflexivity|]. split; [discriminate|]. split; [exact Hf|].
    intros tl. unfold match_scheme. rewrite <- app_assoc.
    now rewrite (strip_prefix_app (lit "https://")).
Qed.

Lemma absolute_http_url_intro (scheme run : str) :
  scheme = lit "http://" \/ scheme = lit "https://" ->
  run <> [] -> forallb not_dquote run = true ->
  absolute_http_url (scheme ++ run) = true.
Proof.
  intros Hs Hr Hf. destruct run as [|c run]; [congruence|].
  unfold absolute_http_url.
  destruct Hs as [-> | ->].
  - rewrite (strip_prefix_app (lit "http://")).
    rewrite forallb_app, Hf. reflexivity.
  - rewrite (strip_prefix_app (lit "https://")).
    replace (strip_prefix (lit "http://") (lit "https://" ++ c :: run))
      with (@None str) by reflexivity.
    rewrite forallb_app, Hf. reflexivity.
Qed.

Lemma match_quoted_url_complete (key u post : str) :
  absolute_http_url u = true ->
  match_quoted_url key (field_opening key ++ u ++ dquote :: post) = Some u.
Proof.
  intros H. destruct (absolute_http_url_inv _ H) as (scheme & rest & -> & Hne & Hf & Hm).
  unfold match_quoted_url. rewrite strip_prefix_app, Hm.
  rewrite span_app by (auto; reflexivity).
  destruct rest; [congruence|]. reflexivity.
Qed.

Lemma match_quoted_url_sound (key s g : str) :
  match_quoted_url key s = Some g ->
  exists post,
    s = field_opening key ++ g ++ dquote :: post /\ absolute_http_url g = true.
Proof.
  unfold match_quoted_url.
  destruct (strip_prefix (field_opening key) s) as [s1|] eqn:E1; [|discriminate].
  apply strip_prefix_Some in E1.
  destruct (match_scheme s1) as [[scheme s2]|] eqn:E2; [|discriminate].
  apply match_scheme_spec in E2 as [-> Hs].
  destruct (span not_dquote s2) as [run b] eqn:E3.
  apply span_spec in E3 as (-> & Hf & Hb).
  destruct run as [|c run]; [discriminate|].
  destruct b as [|q b]; [discriminate|].
  destruct (N.eqb_spec q dquote) as [->|]; [|discriminate].
  intros H; inversion H; subst. exists b. split.
  - now rewrite <- !app_assoc.
  - apply absolute_http_url_intro; auto. discriminate.
Qed.

Lemma lazy_until_dquote_complete (t post : str) :
  title_text t = true -> lazy_until_dquote (t ++ dquote :: post) = Some t.
Proof.
  unfold title_text. induction t as [|c t IH]; simpl; intros H.
  - reflexivity.
  - apply andb_prop in H as [Hc Ht]. apply andb_prop in Hc as [Hq Hn].
    apply negb_true_iff in Hq, Hn. now rewrite Hq, Hn, (IH Ht).
Qed.

Lemma lazy_until_dquote_sound (s g : str) :
  lazy_until_dquote s = Some g ->
  exists post, s = g ++ dquote :: post /\ title_text g = true.
Proof.
  revert g; induction s as [|c s IH]; simpl; intros g H; [discriminate|].
  destruct (N.eqb_spec c dquote) as [->|Hq].
  - inversion H; subst. now exists s.
  - destruct (N.eqb_spec c newline) as [->|Hn]; [discriminate|].
    destruct (lazy_until_dquote s) as [g'|]; [|discriminate].
    inversion H; subst. destruct (IH _ eq_refl) as (post & -> & Ht).
    exists post. split; [reflexivity|].
    unfold title_text in *. simpl. rewrite Ht.
    apply N.eqb_neq in Hq, Hn. now rewrite Hq, Hn.
Qed.

Lemma match_desc_complete (t post : str) :
  title_text t = true ->
  match_desc (field_opening (lit "desc") ++ t ++ dquote :: post) = Some t.
Proof.
  intros H. unfold match_desc. rewrite strip_prefix_app.
  now apply lazy_until_dquote_complete.
Qed.

Lemma match_desc_sound (s g : str) :
  match_desc s = Some g ->
  exists post,
    s = field_opening (lit "desc") ++ g ++ dquote :: post /\ title_text g = true.
Proof.
  unfold match_desc.
  destruct (strip_prefix (field_opening (lit "desc")) s) as [s1|] eqn:E; [|discriminate].
  apply strip_prefix_Some in E. intros H.
  apply lazy_until_dquote_sound in H as (post & -> & Ht).
  exists post. now split.
Qed.

(** ** [re.search] finds the leftmost field *)

Lemma re_search_unfold (m : str -> option str) (s : str) :
  re_search m s =
  match m s with
  | Some g => Some g
  | None => match s with [] => None | _ :: t => re_search m t end
  end.
Proof. destruct s; reflexivity. Qed.

Section LeftmostField.

Variable m : str -> option str.
Variable opening : str.
Variable ok : str -> bool.

Hypothesis m_sound : forall s g,
  m s = Some g ->
  exists post, s = opening ++ g ++ dquote :: post /\ ok g = true.

Hypothesis m_complete : forall g post,
  ok g = true -> m (opening ++ g ++ dquote :: post) = Some g.

Lemma field_at_tail (c : char) (body pre v post : str) :
  field_at opening ok body pre v post ->
  field_at opening ok (c :: body) (c :: pre) v post.
Proof. intros [-> H]. now split. Qed.

Lemma first_field_tail (c : char) (body pre : str) :
  first_field opening ok (c :: body) (c :: pre) ->
  first_field opening ok body pre.
Proof.
  intros H pre' v' post' F.
  specialize (H _ _ _ (field_at_tail c _ _ _ _ F)). simpl in H. lia.
Qed.

Lemma re_search_first (body pre v post : str) :
  field_at opening ok body pre v post ->
  first_field opening ok body pre ->
  re_search m body = Some v.
Proof.
  revert body; induction pre as [|c pre IH]; intros body [-> Hok] Hfirst;
    rewrite re_search_unfold.
  - simpl. now rewrite m_complete.
  - destruct (m ((c :: pre) ++ opening ++ v ++ dquote :: post)) as [g|] eqn:E.
    + destruct (m_sound _ _ E) as (post' & Hb & Hg).
      assert (F : field_at opening ok
                    ((c :: pre) ++ opening ++ v ++ dquote :: post) [] g post')
        by now split.
      specialize (Hfirst _ _ _ F). simpl in Hfirst. lia.
    + simpl. apply IH; [now split|].
      now apply (first_field_tail c).
Qed.

Lemma re_search_found (body g : str) :
  re_search m body = Some g ->
  exists pre post,
    field_at opening ok body pre g post /\ first_field opening ok body pre.
Proof.
  induction body as [|c body IH]; rewrite re_search_unfold.
  - destruct (m []) as [g'|] eqn:E; [|discriminate].
    intros H; inversion H; subst.
    destruct (m_sound _ _ E) as (post & Hb & Hg).
    exists [], post. split; [now split|]. intros ? ? ? _. simpl. lia.
  - destruct (m (c :: body)) as [g'|] eqn:E.
    + intros H; inversion H; subst.
      destruct (m_sound _ _ E) as (post & Hb & Hg).
      exists [], post. split; [now split|]. intros ? ? ? _. simpl. lia.
    + intros H. destruct (IH H) as (pre & post & F & Hfirst).
      exists (c :: pre), post. split; [now apply field_at_tail|].
      intros pre' v' post' [Hb Hv].
      destruct pre' as [|c' pre'].
      * simpl in Hb. rewrite Hb, m_complete in E by assumption. discriminate.
      * simpl in Hb. inversion Hb; subst.
        assert (F' : field_at opening ok
                       (pre' ++ opening ++ v' ++ dquote :: post') pre' v' post')
          by now split.
        specialize (Hfirst _ _ _ F'). simpl. lia.
Qed.

Lemma re_search_None (body : str) :
  re_search m body = None <-> ~ has_field opening ok body.
Proof.
  split.
  - intros H (pre & v & post & -> & Hv).
    induction pre as [|c pre IH]; rewrite re_search_unfold in H.
    + simpl in H. now rewrite m_complete in H.
    + destruct (m ((c :: pre) ++ opening ++ v ++ dquote :: post));
        [discriminate|]. now apply IH.
  - intros H. destruct (re_search m body) as [g|] eqn:E; [|reflexivity].
    destruct (re_search_found _ _ E) as (pre & post & F & _).
    exfalso. apply H. now exists pre, g, post.
Qed.

Lemma no_match_before_first (body pre : str) :
  no_match_before m body (List.length pre) = true ->
  first_field opening ok body pre.
Proof.
  revert body; induction pre as [|c pre IH]; intros body H pre' v' post' F.
  - simpl. lia.
  - revert H. simpl. destruct (m body) eqn:E; [discriminate|]. intros H.
    destruct F as [-> Hv]. destruct pre' as [|c' pre'].
    + simpl in E. now rewrite m_complete in E.
    + simpl in *. apply le_n_S. eapply IH; [exact H|]. now split.
Qed.

End LeftmostField.

Lemma search_url_first (key : string) (body pre u post : str) :
  url_field_at key body pre u post ->
  first_url_field key body pre ->
  search_quoted_url key body = Some u.
Proof.
  apply re_search_first.
  - apply match_quoted_url_sound.
  - intros g p. apply match_quoted_url_complete.
Qed.

Lemma search_url_found (key : string) (body g : str) :
  search_quoted_url key body = Some g ->
  exists pre post, url_field_at key body pre g post /\ first_url_field key body pre.
Proof.
  apply re_search_found.
  - apply match_quoted_url_sound.
  - intros u p. apply match_quoted_url_complete.
Qed.

Lemma search_url_None (key : string) (body : str) :
  search_quoted_url key body = None <-> ~ has_url_field key body.
Proof.
  apply re_search_None.
  - apply match_quoted_url_sound.
  - intros g p. apply match_quoted_url_complete.
Qed.

Lemma first_url_field_check (key : string) (body pre : str) :
  no_match_before (match_quoted_url (lit key)) body (List.length pre) = true ->
  first_url_field key body pre.
Proof.
  apply no_match_before_first. intros g p. apply match_quoted_url_complete.
Qed.

Lemma title_of_first (body pre t post : str) :
  desc_field_at body pre t post -> first_desc_field body pre ->
  title_of body = t.
Proof.
  intros F H. unfold title_of.
  now rewrite (re_search_first _ _ _ match_desc_sound match_desc_complete _ _ _ _ F H).
Qed.

Lemma title_of_absent (body : str) :
  ~ has_desc_field body -> title_of body = default_title.
Proof.
  intros H. unfold title_of.
  apply (re_search_None _ _ _ match_desc_sound match_desc_complete) in H.
  now rewrite H.
Qed.

Lemma first_desc_field_check (body pre : str) :
  no_match_before match_desc body (List.length pre) = true ->
  first_desc_field body pre.
Proof. apply no_match_before_first. apply match_desc_complete. Qed.

(** ** Slash decoding *)

Lemma replace_from_skip (old new : str) (k : nat) (s : str) :
  replace_from old new k s = replace_from old new 0 (skipn k s).
Proof.
  revert k; induction s as [|c t IH]; intros [|k]; try reflexivity.
  simpl. apply IH.
Qed.

Lemma slash_decode_nil : slash_decode [] = [].
Proof. reflexivity. Qed.

Lemma slash_decode_escape (b : str) :
  slash_decode (escaped_slash ++ b) = slash :: slash_decode b.
Proof.
  reflexivity.
Qed.

Lemma slash_decode_copy (c : char) (t : str) :
  starts_with escaped_slash (c :: t) = false ->
  slash_decode (c :: t) = c :: slash_decode t.
Proof.
  intros H. unfold slash_decode, replace, escaped_slash in *.
  cbn [replace_from]. now rewrite H.
Qed.

(** The cases of [slash_decode], as an induction principle. *)
Lemma slash_decode_ind (P : str -> Prop) :
  P [] ->
  (forall b, P b -> P (escaped_slash ++ b)) ->
  (forall c t, starts_with escaped_slash (c :: t) = false -> P t -> P (c :: t)) ->
  forall s, P s.
Proof.
  intros Hnil Hesc Hcopy s.
  remember (List.length s) as n eqn:Hn.
  revert s Hn. induction n as [n IH] using lt_wf_ind. intros s Hn.
  destruct s as [|c t]; [exact Hnil|].
  destruct (starts_with escaped_slash (c :: t)) eqn:E.
  - apply starts_with_true in E as [b Hb]. rewrite Hb.
    apply Hesc. apply (IH (List.length b)); [|reflexivity].
    subst n. rewrite Hb, length_app. simpl. lia.
  - apply Hcopy; [exact E|]. apply (IH (List.length t)); [|reflexivity].
    subst n. simpl. lia.
Qed.

Lemma slash_decode_head (s r : str) (x : char) :
  slash_decode s = x :: r -> x <> slash ->
  exists t, s = x :: t /\ r = slash_decode t.
Proof.
  intros H Hx. destruct s as [|c t]; [discriminate|].
  destruct (starts_with escaped_slash (c :: t)) eqn:E.
  - apply starts_with_true in E as [b Hb]. rewrite Hb, slash_decode_escape in H.
    inversion H. congruence.
  - rewrite (slash_decode_copy _ _ E) in H. inversion H; subst. now exists t.
Qed.

Lemma starts_with_decoded (c : char) (t : str) :
  starts_with escaped_slash (c :: slash_decode t) = true ->
  starts_with escaped_slash (c :: t) = true.
Proof.
  intros H. apply starts_with_true in H as [r Hr].
  unfold escaped_slash in Hr. simpl in Hr. inversion Hr as [[Hc H1]].
  apply slash_decode_head in H1 as (t1 & -> & H2); [|discriminate].
  symmetry in H2. apply slash_decode_head in H2 as (t2 & -> & H3); [|discriminate].
  symmetry in H3. apply slash_decode_head in H3 as (t3 & -> & H4); [|discriminate].
  symmetry in H4. apply slash_decode_head in H4 as (t4 & -> & H5); [|discriminate].
  symmetry in H5. apply slash_decode_head in H5 as (t5 & -> & H6); [|discriminate].
  apply (starts_with_app escaped_slash t5).
Qed.

(** The decoded text holds no escaped slash. *)
Lemma slash_decode_clean (s : str) :
  occurs escaped_slash (slash_decode s) = false.
Proof.
  induction s as [|b IH|c t E IH] using slash_decode_ind.
  - reflexivity.
  - rewrite slash_decode_escape. simpl. now rewrite IH.
  - rewrite (slash_decode_copy _ _ E). simpl. rewrite IH, orb_false_r.
    destruct (starts_with escaped_slash (c :: slash_decode t)) eqn:E'; [|reflexivity].
    apply starts_with_decoded in E'. congruence.
Qed.

(** A text without the escape is left as it is. *)
Lemma slash_decode_id (s : str) :
  occurs escaped_slash s = false -> slash_decode s = s.
Proof.
  induction s as [|c t IH]; [reflexivity|].
  intros H. simpl in H. apply orb_false_elim in H as [H1 H2].
  rewrite (slash_decode_copy _ _ H1). now rewrite (IH H2).
Qed.

Lemma strip_prefix_app_r (p s r t : str) :
  strip_prefix p s = Some r -> strip_prefix p (s ++ t) = Some (r ++ t).
Proof.
  intros H. apply strip_prefix_Some in H. subst s.
  rewrite <- app_assoc. apply strip_prefix_app.
Qed.

(** The escape has no border: an occurrence cannot start inside a text
    that has none and end inside an occurrence that follows it. *)
Lemma no_straddle (c : char) (a b : str) :
  starts_with escaped_slash (c :: a) = false ->
  occurs escaped_slash a = false ->
  starts_with escaped_slash (c :: a ++ escaped_slash ++ b) = false.
Proof.
  intros H1 H2.
  destruct (starts_with escaped_slash (c :: a ++ escaped_slash ++ b)) eqn:E;
    [|reflexivity].
  exfalso. apply starts_with_true in E as [r Hr].
  unfold escaped_slash in Hr. simpl in Hr.
  destruct a as [|x1 [|x2 [|x3 [|x4 [|x5 a]]]]]; simpl in Hr;
    try (inversion Hr; fail).
  inversion Hr; subst. cbn in H1. discriminate.
Qed.

(** Exactly the occurrences of the escape are replaced. *)
Lemma slash_decode_first (a b : str) :
  occurs escaped_slash a = false ->
  slash_decode (a ++ escaped_slash ++ b) = a ++ slash :: slash_decode b.
Proof.
  induction a as [|c a IH]; intros H.
  - apply slash_decode_escape.
  - simpl in H. apply orb_false_elim in H as [H1 H2].
    change ((c :: a) ++ escaped_slash ++ b) with (c :: a ++ escaped_slash ++ b).
    rewrite slash_decode_copy by now apply no_straddle.
    rewrite (IH H2). reflexivity.
Qed.

Lemma slash_decode_nonempty (s : str) : s <> [] -> slash_decode s <> [].
Proof.
  destruct s as [|c t]; [congruence|]. intros _.
  destruct (starts_with escaped_slash (c :: t)) eqn:E.
  - apply starts_with_true in E as [b ->]. rewrite slash_decode_escape. discriminate.
  - rewrite (slash_decode_copy _ _ E). discriminate.
Qed.

(** ** The call log is only written *)

Ltac unfold_py :=
  unfold _extract_playaddr_with_playwright, _render_with_playwright,
    _get_final_response, bind, ret, call, try_except, any_exception.

Ltac split_cases :=
  repeat (cbn [fst snd app];
          match goal with
          | |- context [match ?x with _ => _ end] =>
              lazymatch x with
              | context [match _ with _ => _ end] => fail
              | _ => destruct x eqn:?
              end
          end).

Lemma render_log (w : World) (u : str) (log : list event) :
  _render_with_playwright w u log =
  (fst (_render_with_playwright w u []),
   log ++ snd (_render_with_playwright w u [])).
Proof.
  unfold_py. split_cases; cbn [fst snd app];
    rewrite <- ?app_assoc; reflexivity.
Qed.

Lemma dom_log (w : World) (u : str) (log : list event) :
  _extract_playaddr_with_playwright w u log =
  (fst (_extract_playaddr_with_playwright w u []),
   log ++ snd (_extract_playaddr_with_playwright w u [])).
Proof.
  unfold_py. split_cases; cbn [fst snd app];
    rewrite <- ?app_assoc; reflexivity.
Qed.

(** ** The two Playwright helpers *)

Lemma render_returns (w : World) (u : str) :
  exists r evs, _render_with_playwright w u [] = (inr r, evs).
Proof. unfold_py. split_cases; eauto. Qed.

Lemma render_unavailable (w : World) (u : str) :
  snapshot_unavailable w u ->
  fst (_render_with_playwright w u []) = inr None.
Proof.
  unfold_py. intros [[e H] | [e H]]; rewrite H; cbn; [reflexivity|].
  destruct (snap_import w); reflexivity.
Qed.

Lemma dom_returns (w : World) (u : str) :
  exists r evs, _extract_playaddr_with_playwright w u [] = (inr r, evs).
Proof. unfold_py. split_cases; eauto. Qed.

Lemma dom_unavailable_None (w : World) (u : str) :
  dom_unavailable w u ->
  fst (_extract_playaddr_with_playwright w u []) = inr None.
Proof.
  unfold_py. intros [[e H] | [e H]]; rewrite H; cbn; [reflexivity|].
  destruct (dom_import w); reflexivity.
Qed.

Lemma dom_src (w : World) (u src : str) :
  dom_video_src_closed w u src -> src <> [] ->
  _extract_playaddr_with_playwright w u [] =
  (inr (Some src),
   [EvImport DomQuery; EvOpen DomQuery u; EvWaitVideo; EvQueryVideo;
    EvGetSrc; EvCloseContext; EvClose DomQuery]).
Proof.
  intros (page & el & Hi & Hg & Hw & Hq & Ha & Hc1 & Hc2) Hne.
  unfold_py. rewrite Hi. cbn. rewrite Hg. cbn. rewrite Hw. cbn.
  rewrite Hq. cbn. rewrite Ha. cbn.
  destruct src; [congruence|]. cbn. rewrite Hc1. cbn. rewrite Hc2.
  reflexivity.
Qed.

Lemma dom_scan (w : World) (u : str) (page : DomPage) (t : str) :
  dom_import w = inr tt -> dom_goto w u = inr page ->
  dom_no_video page -> scripts_text_of page t -> dom_closes page ->
  fst (_extract_playaddr_with_playwright w u []) =
  inr (scan_candidates candidate_patterns t).
Proof.
  intros Hi Hg Hv Ht [Hc1 Hc2]. unfold_py. rewrite Hi. cbn. rewrite Hg. cbn.
  destruct Hv as [[e Hw] | [Hw Hq]]; destruct Ht as [Ht | [[e' He] Ht]];
    rewrite Hw; cbn; rewrite ?Hq; cbn; rewrite ?He; cbn; rewrite Ht; cbn;
    destruct (scan_candidates candidate_patterns t); cbn;
    rewrite Hc1; cbn; rewrite Hc2; reflexivity.
Qed.

(** ** The bare media URL heuristic against its description *)

Lemma last_mp4_sound (run x : str) :
  last_mp4 run = Some x ->
  exists mid tail, mid <> [] /\ x = mid ++ dot_mp4 /\ run = x ++ tail.
Proof.
  revert x; induction run as [|c t IH]; intros x H; simpl in H;
    [discriminate|].
  destruct (last_mp4 t) as [g'|] eqn:E.
  - inversion H; subst. destruct (IH _ eq_refl) as (mid & tail & Hm & -> & Ht).
    exists (c :: mid), tail. repeat split; [discriminate|].
    simpl. now rewrite Ht at 1.
  - destruct (starts_with dot_mp4 t) eqn:Es; [|discriminate].
    inversion H; subst. apply starts_with_true in Es as [tail ->].
    exists [c], tail. repeat split. discriminate.
Qed.

Lemma last_mp4_some (mid tail : str) :
  mid <> [] -> last_mp4 (mid ++ dot_mp4 ++ tail) <> None.
Proof.
  induction mid as [|c mid IH]; [congruence|]. intros _.
  change ((c :: mid) ++ dot_mp4 ++ tail) with (c :: (mid ++ dot_mp4 ++ tail)).
  cbn [last_mp4].
  destruct mid as [|c' mid].
  - cbn [app]. rewrite (starts_with_app dot_mp4 tail).
    destruct (last_mp4 (dot_mp4 ++ tail)); discriminate.
  - destruct (last_mp4 ((c' :: mid) ++ dot_mp4 ++ tail)) eqn:E;
      [discriminate|].
    exfalso. apply IH; [discriminate|reflexivity].
Qed.

Lemma last_mp4_longest (run x mid' tail' : str) :
  last_mp4 run = Some x ->
  mid' <> [] -> run = mid' ++ dot_mp4 ++ tail' ->
  (List.length (mid' ++ dot_mp4) <= List.length x)%nat.
Proof.
  revert x mid'; induction run as [|c t IH]; intros x mid' H Hm Hr;
    [discriminate|].
  cbn [last_mp4] in H.
  destruct mid' as [|c' m']; [congruence|]. cbn [app] in Hr.
  injection Hr as Hc Ht0. subst c'.
  assert (Ht : t = m' ++ dot_mp4 ++ tail') by exact Ht0. clear Ht0.
  destruct (last_mp4 t) as [g'|] eqn:E.
  - injection H as <-. destruct m' as [|c'' m''].
    + apply last_mp4_sound in E as (mid & tail & Hmid & -> & _).
      destruct mid; [congruence|]. cbn. rewrite ?length_app. cbn. lia.
    + cbn [app List.length]. apply le_n_S.
      apply (IH g' (c'' :: m'') eq_refl); [discriminate|exact Ht].
  - destruct (starts_with dot_mp4 t) eqn:Es; [|discriminate].
    injection H as <-. destruct m' as [|c'' m''].
    + cbn. lia.
    + exfalso. apply (last_mp4_some (c'' :: m'') tail'); [discriminate|].
      rewrite <- Ht. exact E.
Qed.

Lemma span_prefix (f : char -> bool) (a b : str) :
  forallb f a = true -> fst (span f (a ++ b)) = a ++ fst (span f b).
Proof.
  intros H. induction a as [|x a IH]; [reflexivity|].
  simpl in *. apply andb_prop in H as [Hx Ha]. rewrite Hx.
  specialize (IH Ha). destruct (span f (a ++ b)). simpl in *. now rewrite IH.
Qed.

Lemma forallb_prefix (f : char -> bool) (a b : str) :
  forallb f (a ++ b) = true -> forallb f a = true.
Proof. rewrite forallb_app. intros H. now apply andb_prop in H. Qed.

Lemma prefix_same_length (a b c d : str) :
  a ++ b = c ++ d -> List.length a = List.length c -> a = c.
Proof.
  revert c; induction a as [|x a IH]; intros [|y c] H L; try discriminate;
    [reflexivity|].
  simpl in *. inversion H; subst. f_equal. apply (IH c); auto.
Qed.

Lemma match_scheme_here (scheme rest : str) :
  scheme = lit "http://" \/ scheme = lit "https://" ->
  match_scheme (scheme ++ rest) = Some (scheme, rest).
Proof.
  intros [-> | ->]; unfold match_scheme.
  - replace (strip_prefix (lit "https://") (lit "http://" ++ rest))
      with (@None str) by reflexivity.
    now rewrite (strip_prefix_app (lit "http://")).
  - now rewrite (strip_prefix_app (lit "https://")).
Qed.

Lemma dot_mp4_url_chars : forallb url_char dot_mp4 = true.
Proof. reflexivity. Qed.

Lemma match_bare_mp4_sound (s g : str) :
  match_bare_mp4 s = Some g -> mp4_url g /\ exists rest, s = g ++ rest.
Proof.
  unfold match_bare_mp4.
  destruct (match_scheme s) as [[scheme s1]|] eqn:E; [|discriminate].
  apply match_scheme_spec in E as [-> Hs].
  destruct (strip_prefix (lit "v") s1) as [s2|] eqn:Ev; [|discriminate].
  apply strip_prefix_Some in Ev. subst s1.
  destruct (span url_char s2) as [run rest2] eqn:Esp. cbn [fst].
  apply span_spec in Esp as (-> & Hrun & _).
  destruct (last_mp4 run) as [x|] eqn:El; [|discriminate].
  apply last_mp4_sound in El as (mid & tail & Hm & -> & Hr).
  intros H; inversion H; subst g. split.
  - exists scheme, mid. repeat split; auto.
    rewrite Hr in Hrun. apply forallb_prefix in Hrun.
    now apply forallb_prefix in Hrun.
  - exists (tail ++ rest2). rewrite Hr, <- !app_assoc. cbn [app].
    rewrite <- !app_assoc. reflexivity.
Qed.

Lemma match_bare_mp4_complete (s g : str) :
  longest_mp4_url s g -> match_bare_mp4 s = Some g.
Proof.
  intros ((scheme & mid & Hs & Hm & Hmid & ->) & (rest & ->) & Hmax).
  unfold match_bare_mp4.
  rewrite <- !app_assoc. rewrite (match_scheme_here _ _ Hs).
  rewrite strip_prefix_app.
  change (lit ".mp4") with dot_mp4 in *.
  rewrite (span_prefix _ _ _ Hmid), (span_prefix _ _ _ dot_mp4_url_chars).
  set (run' := fst (span url_char rest)).
  assert (Hrun' : forallb url_char run' = true /\ exists r2, rest = run' ++ r2).
  { subst run'. destruct (span url_char rest) as [a b] eqn:E.
    apply span_spec in E as (-> & Ha & _). split; [exact Ha|now exists b]. }
  destruct Hrun' as (Hr1 & r2 & Hr2).
  destruct (last_mp4 (mid ++ dot_mp4 ++ run')) as [x|] eqn:El.
  2:{ exfalso. now apply (last_mp4_some mid run'). }
  pose proof (last_mp4_longest _ _ mid run' El Hm eq_refl) as Hge.
  pose proof El as El'.
  apply last_mp4_sound in El' as (mid2 & tail & Hm2 & -> & Hr).
  assert (Hle : (List.length (mid2 ++ dot_mp4) <= List.length (mid ++ dot_mp4))%nat).
  { assert (Hu : forallb url_char mid2 = true).
    { assert (Hall : forallb url_char (mid ++ dot_mp4 ++ run') = true).
      { rewrite !forallb_app, Hmid, Hr1. reflexivity. }
      rewrite Hr in Hall. apply forallb_prefix in Hall.
      now apply forallb_prefix in Hall. }
    assert (G : mp4_url (scheme ++ lit "v" ++ mid2 ++ dot_mp4))
      by (exists scheme, mid2; auto).
    assert (Heq : (scheme ++ lit "v" ++ mid ++ dot_mp4) ++ rest =
                  (scheme ++ lit "v" ++ mid2 ++ dot_mp4) ++ tail ++ r2).
    { rewrite Hr2, <- !app_assoc. do 2 f_equal.
      transitivity ((mid ++ dot_mp4 ++ run') ++ r2);
        [now rewrite <- !app_assoc|].
      rewrite Hr. now rewrite <- !app_assoc. }
    pose proof (Hmax _ _ G Heq) as Hlen.
    repeat rewrite length_app in Hlen. repeat rewrite length_app. lia. }
  assert (Hx : mid2 ++ dot_mp4 = mid ++ dot_mp4).
  { apply (prefix_same_length _ tail _ run'); [|lia].
    rewrite <- Hr. now rewrite <- app_assoc. }
  now rewrite Hx.
Qed.

Lemma bare_mp4_search (t g : str) :
  first_bare_mp4 t g -> re_search match_bare_mp4 t = Some g.
Proof.
  intros (before & s & -> & Hl & Hfirst).
  induction before as [|c before IH]; rewrite re_search_unfold.
  - simpl. now rewrite (match_bare_mp4_complete _ _ Hl).
  - destruct (match_bare_mp4 ((c :: before) ++ s)) as [g'|] eqn:E.
    + apply match_bare_mp4_sound in E as (Hg' & rest' & Hs).
      specialize (Hfirst [] g' rest' Hs Hg'). simpl in Hfirst. lia.
    + simpl. apply IH. intros before' g' rest' Hb Hg'.
      specialize (Hfirst (c :: before') g' rest').
      simpl in Hfirst. rewrite Hb in Hfirst.
      specialize (Hfirst eq_refl Hg'). lia.
Qed.

Lemma mp4_url_nonempty (g : str) : mp4_url g -> g <> [].
Proof.
  intros (scheme & mid & [-> | ->] & _ & _ & ->); discriminate.
Qed.

(** ** Slash decoding against [split] and [join] *)

Lemma occurs_first (s : str) :
  occurs escaped_slash s = true ->
  exists a b, s = a ++ escaped_slash ++ b /\ occurs escaped_slash a = false.
Proof.
  induction s as [|c t IH]; [discriminate|].
  intros H. cbn [occurs] in H.
  destruct (starts_with escaped_slash (c :: t)) eqn:E.
  - apply starts_with_true in E as [b Hb]. exists [], b. now split.
  - simpl in H. destruct (IH H) as (a & b & -> & Ha).
    exists (c :: a), b. split; [reflexivity|]. cbn [occurs]. rewrite Ha.
    rewrite orb_false_r.
    destruct (starts_with escaped_slash (c :: a)) eqn:E'; [|reflexivity].
    unfold starts_with in E, E'.
    destruct (strip_prefix escaped_slash (c :: a)) as [r|] eqn:Er;
      [|discriminate].
    change (c :: a ++ escaped_slash ++ b)
      with ((c :: a) ++ escaped_slash ++ b) in E.
    now rewrite (strip_prefix_app_r _ _ _ _ Er) in E.
Qed.

Lemma slash_decode_join (parts : list str) :
  escape_free parts ->
  slash_decode (join escaped_slash parts) = join [slash] parts.
Proof.
  induction parts as [|p rest IH]; intros H; [reflexivity|].
  inversion H as [|? ? Hp Hrest]; subst.
  destruct rest as [|q rest].
  - now apply slash_decode_id.
  - change (join escaped_slash (p :: q :: rest))
      with (p ++ escaped_slash ++ join escaped_slash (q :: rest)).
    change (join [slash] (p :: q :: rest))
      with (p ++ [slash] ++ join [slash] (q :: rest)).
    rewrite (slash_decode_first _ _ Hp), (IH Hrest). reflexivity.
Qed.

(** Every text is the join of escape-free pieces. *)
Lemma escape_free_split (s : str) :
  exists parts, escape_free parts /\ s = join escaped_slash parts.
Proof.
  remember (List.length s) as n eqn:Hn. revert s Hn.
  induction n as [n IH] using lt_wf_ind. intros s Hn.
  destruct (occurs escaped_slash s) eqn:E.
  - destruct (occurs_first _ E) as (a & b & -> & Ha).
    destruct (IH (List.length b)) with (s := b) as (parts & Hp & Hb);
      [subst n; rewrite !length_app; simpl; lia|reflexivity|].
    destruct parts as [|q rest].
    + exists [a; []]. split.
      * repeat constructor; auto.
      * simpl in Hb. subst b. reflexivity.
    + exists (a :: q :: rest). split; [now constructor|].
      rewrite Hb. reflexivity.
  - exists [s]. split; [repeat constructor; auto|reflexivity].
Qed.

Lemma scan_candidates_cons (pat : str -> option str)
    (pats : list (str -> option str)) (t : str) :
  scan_candidates (pat :: pats) t =
  match re_search pat t with
  | Some g => Some (slash_decode g)
  | None => scan_candidates pats t
  end.
Proof. reflexivity. Qed.

Lemma scan_candidates_decoded (pats : list (str -> option str)) (t x : str) :
  scan_candidates pats t = Some x -> exists g, x = slash_decode g.
Proof.
  induction pats as [|pat pats IH]; [discriminate|].
  rewrite scan_candidates_cons.
  destruct (re_search pat t) as [g|]; [|exact IH].
  intros H; inversion H. now exists g.
Qed.

Lemma scan_candidates_selects (t g : str) :
  script_candidate t g ->
  scan_candidates candidate_patterns t = Some (slash_decode g).
Proof.
  unfold candidate_patterns.
  intros [pre u post F H1 | pre u post N1 F H1 | pre u post N1 N2 F H1
         | g' N1 N2 N3 H1]; rewrite !scan_candidates_cons.
  - fold (search_quoted_url "playAddr" t).
    now rewrite (search_url_first _ _ _ _ _ F H1).
  - fold (search_quoted_url "playAddr" t) (search_quoted_url "srcNoMark" t).
    apply search_url_None in N1. rewrite N1.
    now rewrite (search_url_first _ _ _ _ _ F H1).
  - fold (search_quoted_url "playAddr" t) (search_quoted_url "srcNoMark" t)
      (search_quoted_url "downloadAddr" t).
    apply search_url_None in N1, N2. rewrite N1, N2.
    now rewrite (search_url_first _ _ _ _ _ F H1).
  - fold (search_quoted_url "playAddr" t) (search_quoted_url "srcNoMark" t)
      (search_quoted_url "downloadAddr" t).
    apply search_url_None in N1, N2, N3.
    now rewrite N1, N2, N3, (bare_mp4_search _ _ H1).
Qed.

Lemma dom_found (w : World) (u x : str) (evs : list event) :
  _extract_playaddr_with_playwright w u [] = (inr (Some x), evs) ->
  dom_video_src w u x \/ exists g, x = slash_decode g.
Proof.
  unfold_py. split_cases; intros H; inversion H; subst;
    try (right; eapply scan_candidates_decoded; eassumption).
  left. repeat match goal with v : unit |- _ => destruct v end.
  unfold dom_video_src. eauto 10.
Qed.

(** ** The pipeline, stage by stage *)

Ltac unfold_info :=
  unfold extract, get_video_info, get_video_info_printing;
  unfold _get_final_response, bind, ret, call, try_except, py_print,
    accepting.

Lemma get_video_info_log (w : World) (share_url : str) (log : list event) :
  get_video_info w share_url log =
  (fst (extract w share_url), log ++ snd (extract w share_url)).
Proof.
  unfold_info.
  destruct (session_get w share_url) as [[msg|]|resp]; cbn;
    try reflexivity.
  destruct (search_quoted_url "playAddr" (text resp)); cbn; [reflexivity|].
  rewrite (dom_log w share_url (log ++ _)), (dom_log w share_url [_]).
  destruct (dom_returns w share_url) as (d & evs1 & ->). cbn.
  destruct (truthy d); cbn.
  - now rewrite <- app_assoc.
  - rewrite (render_log w share_url (_ ++ _)), (render_log w share_url (_ :: _)).
    destruct (render_returns w share_url) as (r & evs2 & ->). cbn.
    destruct (truthy r); [destruct r as [html|]|]; cbn;
      try destruct (search_quoted_url "playAddr" html); cbn;
      now rewrite <- !app_assoc.
Qed.

(** The four ways in which the pipeline ends once the page was fetched. *)
Lemma extract_cases (w : World) (share_url : str) (resp : Response) :
  session_get w share_url = inr resp ->
  (exists g,
      search_quoted_url "playAddr" (text resp) = Some g /\
      extract w share_url =
      (inr (mkVideoInfo (title_of (text resp)) (Some (slash_decode g)) true None),
       [EvGet share_url]))
  \/
  (search_quoted_url "playAddr" (text resp) = None /\
   exists d evs1,
     _extract_playaddr_with_playwright w share_url [] = (inr d, evs1) /\
     ((exists x,
          d = Some x /\ x <> [] /\
          extract w share_url =
          (inr (mkVideoInfo (title_of (text resp)) (Some x) true None),
           EvGet share_url :: evs1))
      \/
      (truthy d = false /\
       exists r evs2,
         _render_with_playwright w share_url [] = (inr r, evs2) /\
         ((exists html g,
              r = Some html /\ html <> [] /\
              search_quoted_url "playAddr" html = Some g /\
              extract w share_url =
              (inr (mkVideoInfo (title_of (text resp))
                      (Some (slash_decode g)) true None),
               EvGet share_url :: evs1 ++ evs2))
          \/
          ((truthy r = false \/
            exists html, r = Some html /\
                         search_quoted_url "playAddr" html = None) /\
           extract w share_url =
           (inr (mkVideoInfo default_title None false (Some exhausted_message)),
            EvGet share_url :: evs1 ++ evs2)))))).
Proof.
  intros Hget. unfold_info. rewrite Hget. cbn.
  destruct (search_quoted_url "playAddr" (text resp)) as [g|] eqn:Hs.
  - left. now exists g.
  - right. split; [reflexivity|].
    rewrite (dom_log w share_url [_]).
    destruct (dom_returns w share_url) as (d & evs1 & Hd). rewrite Hd. cbn.
    exists d, evs1. split; [reflexivity|].
    destruct (truthy d) eqn:Td.
    + left. destruct d as [[|c x]|]; try discriminate.
      exists (c :: x). repeat split. discriminate.
    + right. split; [reflexivity|].
      rewrite (render_log w share_url (_ :: _)).
      destruct (render_returns w share_url) as (r & evs2 & Hr). rewrite Hr. cbn.
      exists r, evs2. split; [reflexivity|].
      destruct (truthy r) eqn:Tr.
      * destruct r as [[|c html]|]; try discriminate.
        destruct (search_quoted_url "playAddr" (c :: html)) as [g|] eqn:Hs2.
        -- left. exists (c :: html), g. repeat split; [discriminate|exact Hs2].
        -- right. split; [|reflexivity]. right. now exists (c :: html).
      * right. split; [|reflexivity]. now left.
Qed.

Lemma search_url_nonempty (key : string) (body g : str) :
  search_quoted_url key body = Some g -> g <> [].
Proof.
  intros H. apply search_url_found in H as (pre & post & [_ Hg] & _).
  intros ->. discriminate.
Qed.

Lemma extract_static (w : World) (share_url : str) (resp : Response)
    (pre u post : str) :
  session_get w share_url = inr resp ->
  url_field_at "playAddr" (text resp) pre u post ->
  first_url_field "playAddr" (text resp) pre ->
  extract w share_url =
  (inr (mkVideoInfo (title_of (text resp)) (Some (slash_decode u)) true None),
   [EvGet share_url]).
Proof.
  intros Hget F H1. unfold_info. rewrite Hget. cbn.
  now rewrite (search_url_first _ _ _ _ _ F H1).
Qed.

Lemma extract_request_exception (w : World) (share_url msg : str) :
  session_get w share_url = inl (RequestException msg) ->
  extract w share_url =
  (inr (mkVideoInfo default_title None false (Some msg)), [EvGet share_url]).
Proof. intros H. unfold_info. now rewrite H. Qed.

Lemma extract_other_exception (w : World) (share_url : str) :
  session_get w share_url = inl OtherException ->
  extract w share_url = (inl OtherException, [EvGet share_url]).
Proof. intros H. unfold_info. now rewrite H. Qed.

Lemma re_search_matcher (m : str -> option str) (s g : str) :
  re_search m s = Some g -> exists s', m s' = Some g.
Proof.
  induction s as [|c s IH]; rewrite re_search_unfold.
  - destruct (m []) eqn:E; [|discriminate]. intros H. exists []. congruence.
  - destruct (m (c :: s)) eqn:E; [|exact IH].
    intros H. exists (c :: s). congruence.
Qed.

Lemma match_bare_mp4_nonempty (s g : str) :
  match_bare_mp4 s = Some g -> g <> [].
Proof.
  unfold match_bare_mp4.
  destruct (match_scheme s) as [[scheme s1]|] eqn:E; [|discriminate].
  apply match_scheme_spec in E as [_ Hs].
  destruct (strip_prefix (lit "v") s1); [|discriminate].
  destruct (last_mp4 _); [|discriminate].
  intros H; inversion H. destruct Hs as [-> | ->]; discriminate.
Qed.

Lemma script_candidate_nonempty (t g : str) : script_candidate t g -> g <> [].
Proof.
  intros [pre u post [_ F] _ | pre u post _ [_ F] _ | pre u post _ _ [_ F] _
         | g' _ _ _ H]; try (intros ->; discriminate).
  destruct H as (before & s & _ & (Hg & _) & _). now apply mp4_url_nonempty.
Qed.

Lemma render_html (w : World) (u : str) (page : SnapPage) (html : str) :
  snap_import w = inr tt -> snap_goto w u = inr page ->
  snap_content page = inr html -> snap_browser_close page = inr tt ->
  fst (_render_with_playwright w u []) = inr (Some html).
Proof.
  intros Hi Hg Hc Hb. unfold_py. rewrite Hi. cbn. rewrite Hg. cbn.
  rewrite Hc. cbn. now rewrite Hb.
Qed.

Lemma extract_snapshot (w : World) (share_url : str) (resp : Response)
    (html pre u post : str) :
  session_get w share_url = inr resp ->
  ~ has_url_field "playAddr" (text resp) ->
  dom_yields_nothing w share_url ->
  fst (_render_with_playwright w share_url []) = inr (Some html) ->
  url_field_at "playAddr" html pre u post ->
  first_url_field "playAddr" html pre ->
  fst (extract w share_url) =
  inr (mkVideoInfo (title_of (text resp)) (Some (slash_decode u)) true None).
Proof.
  intros Hget N (d0 & Hd & Td) Er F H1.
  apply search_url_None in N.
  pose proof (search_url_first _ _ _ _ _ F H1) as Hs.
  destruct (extract_cases _ _ _ Hget)
    as [(g & Hs' & _) | (_ & d & evs1 & Ed &
          [(x & -> & Hx & _) | (_ & r & evs2 & Er' &
             [(h & g & -> & _ & Hs' & E') | ([T | (h & -> & Hs')] & _)])])].
  - congruence.
  - rewrite Ed in Hd. cbn in Hd. inversion Hd; subst.
    destruct x; [congruence|discriminate].
  - rewrite Er' in Er. cbn in Er. inversion Er; subst.
    rewrite E'. cbn. congruence.
  - rewrite Er' in Er. cbn in Er. inversion Er; subst.
    destruct F as [-> _]. destruct pre; discriminate.
  - rewrite Er' in Er. cbn in Er. inversion Er; subst. congruence.
Qed.

Lemma extract_no_snapshot (w : World) (share_url : str) (resp : Response) :
  session_get w share_url = inr resp ->
  ~ has_url_field "playAddr" (text resp) ->
  dom_yields_nothing w share_url ->
  (fst (_render_with_playwright w share_url []) = inr None \/
   exists html,
     fst (_render_with_playwright w share_url []) = inr (Some html) /\
     ~ has_url_field "playAddr" html) ->
  fst (extract w share_url) = inr exhausted_result.
Proof.
  intros Hget N (d0 & Hd & Td) Hr. apply search_url_None in N.
  destruct (extract_cases _ _ _ Hget)
    as [(g & Hs' & _) | (_ & d & evs1 & Ed &
          [(x & -> & Hx & _) | (_ & r & evs2 & Er' &
             [(h & g & -> & _ & Hs' & E') | (_ & E')])])].
  - congruence.
  - rewrite Ed in Hd. cbn in Hd. inversion Hd; subst.
    destruct x; [congruence|discriminate].
  - rewrite Er' in Hr. cbn in Hr.
    destruct Hr as [Hr | (html & Hr & N')]; [discriminate|].
    inversion Hr; subst. apply search_url_None in N'. congruence.
  - now rewrite E'.
Qed.

Lemma mp4_url_chars (g : str) : mp4_url g -> forallb url_char g = true.
Proof.
  intros (scheme & mid & Hs & _ & Hmid & ->).
  rewrite !forallb_app, Hmid.
  destruct Hs as [-> | ->]; reflexivity.
Qed.

(** A run of URL characters that is a prefix of a text ends before the
    first character of the text that is not one. *)
Lemma url_chars_stop (g g' rest rest' : str) (c : char) :
  forallb url_char g' = true -> url_char c = false ->
  g ++ c :: rest = g' ++ rest' ->
  (List.length g' <= List.length g)%nat.
Proof.
  revert g'; induction g as [|x g IH]; intros [|y g'] Hall Hc E; simpl;
    try lia.
  - simpl in E, Hall. inversion E; subst.
    rewrite Hc in Hall. discriminate.
  - simpl in E, Hall. inversion E; subst.
    apply andb_prop in Hall as [_ Hall].
    apply le_n_S. now apply IH.
Qed.

(** The script scan reaches the result when the browser closes. *)
Lemma extract_scan (w : World) (share_url : str) (resp : Response)
    (page : DomPage) (t g : str) :
  session_get w share_url = inr resp ->
  ~ has_url_field "playAddr" (text resp) ->
  dom_import w = inr tt ->
  dom_goto w share_url = inr page ->
  dom_no_video page ->
  scripts_text_of page t ->
  dom_closes page ->
  script_candidate t g ->
  fst (extract w share_url) =
  inr (mkVideoInfo (title_of (text resp)) (Some (slash_decode g)) true None).
Proof.
  intros Hget N Hi Hg Hv Ht Hcl Hc.
  apply search_url_None in N.
  pose proof (dom_scan _ _ _ _ Hi Hg Hv Ht Hcl) as Hd.
  rewrite (scan_candidates_selects _ _ Hc) in Hd.
  pose proof (slash_decode_nonempty _ (script_candidate_nonempty _ _ Hc)) as Hne.
  destruct (extract_cases _ _ _ Hget)
    as [(g' & Hs & _) | (_ & d & evs1 & Ed &
          [(x & -> & _ & E') | (Td & _)])].
  - congruence.
  - rewrite Ed in Hd. cbn in Hd. inversion Hd; subst. now rewrite E'.
  - rewrite Ed in Hd. cbn in Hd. inversion Hd; subst.
    destruct (slash_decode g); [congruence|discriminate].
Qed.

(** [get_video_info] with its prints, from the run on an accepting
    standard output. *)
Lemma printing_cases (out : Stdout) (w : World) (share_url : str) :
  get_video_info_printing out w share_url [] =
  match session_get w share_url with
  | inr resp =>
      match first_exception out (debug_output resp) with
      | None => extract w share_url
      | Some (RequestException msg) =>
          (inr (mkVideoInfo default_title None false (Some msg)),
           [EvGet share_url])
      | Some OtherException => (inl OtherException, [EvGet share_url])
      end
  | inl _ => extract w share_url
  end.
Proof.
  unfold extract, get_video_info, get_video_info_printing.
  unfold _get_final_response, py_print, accepting, debug_output.
  unfold bind at 1. unfold try_except at 1. unfold bind at 1.
  unfold call at 1.
  unfold bind at 8. unfold try_except at 4. unfold bind at 8.
  unfold call at 2.
  destruct (session_get w share_url) as [e|resp]; [reflexivity|].
  cbn [first_exception].
  unfold bind, ret.
  destruct (out _) as [[m|]|[]]; [reflexivity|reflexivity|].
  destruct (out _) as [[m|]|[]]; [reflexivity|reflexivity|].
  destruct (out _) as [[m|]|[]]; [reflexivity|reflexivity|].
  destruct (out _) as [[m|]|[]]; reflexivity.
Qed.

(** * The claims *)

(** C1 (amended).  When the fetch raises a transport error
    ([requests.RequestException]), the result has [success = false], its
    message is the text of the error, and the only call made is the fetch:
    Playwright is not called in either mode.  The status code of a
    response is not looked at: responses that differ in it give the same
    result. *)
Theorem transport_error_aborts (w : World) (share_url msg : str)
    (code : N) (final body : str) :
  session_get w share_url = inl (RequestException msg) ->
  extract w share_url =
    (inr (mkVideoInfo default_title None false (Some msg)), [EvGet share_url])
  /\ existsb render_event (snd (extract w share_url)) = false
  /\ extract (answering w (inr (mkResponse code final body))) share_url =
     extract (answering w (inr (mkResponse 200 final body))) share_url.
Proof.
  intros Hget.
  assert (E : extract w share_url =
              (inr (mkVideoInfo default_title None false (Some msg)),
               [EvGet share_url])).
  { unfold_info. now rewrite Hget. }
  split; [exact E|]. split; [now rewrite E|]. reflexivity.
Qed.

Lemma transport_error_aborts_witness :
  extract refused_world share =
    (inr (mkVideoInfo default_title None false
            (Some (lit "Connection refused"))), [EvGet share])
  /\ existsb render_event (snd (extract refused_world share)) = false
  /\ extract (answering refused_world (inr (mkResponse 503 share body_static)))
       share =
     extract (answering refused_world (inr (mkResponse 200 share body_static)))
       share.
Proof.
  apply (transport_error_aborts refused_world share (lit "Connection refused")
           503 share body_static).
  reflexivity.
Defined.

(** C1 as stated fails: a 404 response counts as a fetch failure in the
    error taxonomy, yet its body is mined and the result is a success. *)
Lemma non_2xx_response_is_mined :
  fetch_failed_per_taxonomy (session_get not_found_world share) = true /\
  exists info evs,
    extract not_found_world share = (inr info, evs) /\ success info = true.
Proof.
  split; [reflexivity|]. do 2 eexists. split; [vm_compute; reflexivity|].
  reflexivity.
Qed.

(** C2.  When the body holds a well-formed play address field, the
    result is a success, Playwright is not called, and [video_url] is the
    slash-decoded URL of the field that the search reports, which is the
    leftmost well-formed one: the given field when none starts before it.
    No escaped slash is left in the decoded URL. *)
Theorem static_play_address_returned (w : World) (share_url : str)
    (resp : Response) (pre u post : str) :
  session_get w share_url = inr resp ->
  url_field_at "playAddr" (text resp) pre u post ->
  exists pre' found post',
    url_field_at "playAddr" (text resp) pre' found post' /\
    first_url_field "playAddr" (text resp) pre' /\
    (first_url_field "playAddr" (text resp) pre -> found = u) /\
    extract w share_url =
      (inr (mkVideoInfo (title_of (text resp)) (Some (slash_decode found))
              true None),
       [EvGet share_url]) /\
    occurs escaped_slash (slash_decode found) = false /\
    existsb render_event (snd (extract w share_url)) = false.
Proof.
  intros Hget F.
  destruct (search_quoted_url "playAddr" (text resp)) as [g|] eqn:Hs.
  - destruct (search_url_found _ _ _ Hs) as (pre' & post' & F' & H1).
    pose proof (extract_static _ _ _ _ _ _ Hget F' H1) as E.
    exists pre', g, post'. repeat split; try apply F'; try exact H1.
    + intros H. rewrite (search_url_first _ _ _ _ _ F H) in Hs. congruence.
    + exact E.
    + apply slash_decode_clean.
    + now rewrite E.
  - apply search_url_None in Hs. exfalso. apply Hs. now exists pre, u, post.
Qed.

Lemma static_play_address_returned_witness :
  extract static_world share =
    (inr (mkVideoInfo (lit "clip")
            (Some (lit "https://v.example.com/video/a.mp4")) true None),
     [EvGet share]).
Proof.
  destruct (static_play_address_returned static_world share
              (mkResponse 200 share body_static)
              (lit "{" ++ quoted_field "desc" "clip" ++ lit ",")
              escaped_src (lit "}"))
    as (pre' & found & post' & _ & _ & Hu & E & _).
  - reflexivity.
  - split; reflexivity.
  - rewrite E, Hu; [reflexivity|].
    apply first_url_field_check. vm_compute. reflexivity.
Defined.

(** C3 (amended).  A title field is the quoted key desc with a text that
    holds no double quote and no line feed (the dot of the pattern does
    not cross a line).  On a success the title is the text of the first
    such field of the body.  A failed result carries the placeholder
    title, and so does every result for a body without such a field.
    Looking for the title never makes the pipeline fail: once the fetch
    and the debug prints have succeeded a result is returned, and a
    failed result is then the exhaustion failure; the only other failure
    after a successful fetch carries the text of a [RequestException]
    raised while printing. *)
Theorem title_follows_outcome (out : Stdout) (w : World) (share_url : str)
    (resp : Response) :
  session_get w share_url = inr resp ->
  (first_exception out (debug_output resp) = None ->
   exists info evs,
     get_video_info_printing out w share_url [] = (inr info, evs)) /\
  (forall info evs,
      get_video_info_printing out w share_url [] = (inr info, evs) ->
      (forall pre t post,
          desc_field_at (text resp) pre t post ->
          first_desc_field (text resp) pre ->
          success info = true -> title info = t) /\
      (~ has_desc_field (text resp) -> title info = default_title) /\
      (success info = false ->
       title info = default_title /\
       (message info = Some exhausted_message \/
        exists msg,
          first_exception out (debug_output resp) =
            Some (RequestException msg) /\
          message info = Some msg))).
Proof.
  intros Hget.
  assert (Hs : forall info evs,
             extract w share_url = (inr info, evs) ->
             (success info = true /\ title info = title_of (text resp)) \/
             info = mkVideoInfo default_title None false (Some exhausted_message)).
  { intros info evs E.
    destruct (extract_cases _ _ _ Hget)
      as [(g & _ & E') | (_ & d & evs1 & _ &
            [(x & _ & _ & E') | (_ & r & evs2 & _ &
               [(html & g & _ & _ & _ & E') | (_ & E')])])];
      rewrite E' in E; inversion E; subst; auto. }
  assert (Hr : exists info evs, extract w share_url = (inr info, evs)).
  { destruct (extract_cases _ _ _ Hget)
      as [(g & _ & E') | (_ & d & evs1 & _ &
            [(x & _ & _ & E') | (_ & r & evs2 & _ &
               [(html & g & _ & _ & _ & E') | (_ & E')])])];
      rewrite E'; eauto. }
  rewrite printing_cases, Hget. split.
  - intros ->. exact Hr.
  - intros info evs.
    destruct (first_exception out (debug_output resp)) as [[msg|]|] eqn:Ep.
    + intros E; inversion E; subst. cbn. split; [|split].
      * intros ? ? ? _ _ Hf. discriminate.
      * reflexivity.
      * intros _. split; [reflexivity|]. right. now exists msg.
    + discriminate.
    + intros E. destruct (Hs _ _ E) as [[Hok Ht] | ->].
      * split; [|split].
        -- intros pre t post F H1 _. rewrite Ht.
           now apply (title_of_first _ pre t post).
        -- intros N. rewrite Ht. now apply title_of_absent.
        -- intros Hf. congruence.
      * cbn. split; [|split]; auto. intros ? ? ? _ _ Hf. discriminate.
Qed.

Lemma title_follows_outcome_witness :
  exists info evs,
    get_video_info_printing accepting static_world share [] = (inr info, evs) /\
    title info = lit "clip".
Proof.
  destruct (title_follows_outcome accepting static_world share
              (mkResponse 200 share body_static) eq_refl) as [H1 H2].
  destruct (H1 eq_refl) as (info & evs & E).
  exists info, evs. split; [exact E|].
  destruct (H2 info evs E) as (Ht & _ & _).
  apply (Ht (lit "{") (lit "clip")
           (lit "," ++ quoted_field "playAddr"
                         "https://v.example.com\u002Fvideo\u002Fa.mp4" ++ lit "}")).
  - split; reflexivity.
  - apply first_desc_field_check. vm_compute. reflexivity.
  - revert E. vm_compute. intros E. inversion E. reflexivity.
Defined.

(** C3 as stated fails: the body holds a title field, the result is the
    exhaustion failure, and its title is the placeholder. *)
Lemma failed_result_drops_title :
  desc_field_at body_plain (lit "{") (lit "clip") (lit "}") /\
  first_desc_field body_plain (lit "{") /\
  exists info evs,
    extract plain_world share = (inr info, evs) /\
    title info <> lit "clip".
Proof.
  split; [split; reflexivity|].
  split; [apply first_desc_field_check; vm_compute; reflexivity|].
  do 2 eexists. split; [vm_compute; reflexivity|].
  cbn. discriminate.
Qed.

(** C4.  When the body has no play address field and Playwright cannot
    be used in either mode, the result is the failure with the fixed
    message. *)
Theorem exhaustion_without_render (w : World) (share_url : str)
    (resp : Response) :
  session_get w share_url = inr resp ->
  ~ has_url_field "playAddr" (text resp) ->
  dom_unavailable w share_url ->
  snapshot_unavailable w share_url ->
  fst (extract w share_url) =
  inr (mkVideoInfo default_title None false (Some exhausted_message)).
Proof.
  intros Hget N Hd Hr.
  apply search_url_None in N.
  apply dom_unavailable_None in Hd. apply render_unavailable in Hr.
  destruct (extract_cases _ _ _ Hget)
    as [(g & Hs & _) | (_ & d & evs1 & Ed &
          [(x & -> & _ & _) | (_ & r & evs2 & Er &
             [(html & g & -> & _ & _ & _) | (_ & E')])])].
  - congruence.
  - rewrite Ed in Hd. discriminate.
  - rewrite Er in Hr. discriminate.
  - now rewrite E'.
Qed.

Lemma exhaustion_without_render_witness :
  fst (extract plain_world share) =
  inr (mkVideoInfo default_title None false (Some exhausted_message)).
Proof.
  apply (exhaustion_without_render plain_world share
           (mkResponse 200 share body_plain)).
  - reflexivity.
  - apply search_url_None. vm_compute. reflexivity.
  - left. exists OtherException. reflexivity.
  - left. exists OtherException. reflexivity.
Defined.

(** C5 (amended).  When the DOM query obtains a non-empty [src] from a
    [video] element and then closes the context and the browser, the
    result is a success with that value as it is, and the calls stop
    there: no script is read and no snapshot is rendered. *)
Theorem dom_video_src_verbatim (w : World) (share_url : str)
    (resp : Response) (src : str) :
  session_get w share_url = inr resp ->
  ~ has_url_field "playAddr" (text resp) ->
  dom_video_src_closed w share_url src ->
  src <> [] ->
  extract w share_url =
    (inr (mkVideoInfo (title_of (text resp)) (Some src) true None),
     [EvGet share_url; EvImport DomQuery; EvOpen DomQuery share_url;
      EvWaitVideo; EvQueryVideo; EvGetSrc; EvCloseContext;
      EvClose DomQuery])
  /\ existsb script_scan_event (snd (extract w share_url)) = false
  /\ existsb snapshot_event (snd (extract w share_url)) = false.
Proof.
  intros Hget N Hsrc Hne.
  apply search_url_None in N. pose proof (dom_src _ _ _ Hsrc Hne) as Ed.
  assert (E : extract w share_url =
    (inr (mkVideoInfo (title_of (text resp)) (Some src) true None),
     [EvGet share_url; EvImport DomQuery; EvOpen DomQuery share_url;
      EvWaitVideo; EvQueryVideo; EvGetSrc; EvCloseContext;
      EvClose DomQuery])).
  { destruct (extract_cases _ _ _ Hget)
      as [(g & Hs & _) | (_ & d & evs1 & Ed' &
            [(x & -> & _ & E') | (Td & _)])].
    - congruence.
    - rewrite Ed in Ed'. inversion Ed'; subst. exact E'.
    - rewrite Ed in Ed'. inversion Ed'; subst.
      destruct src; [congruence|discriminate]. }
  rewrite E. repeat split.
Qed.

Lemma dom_video_src_verbatim_witness :
  extract video_world share =
    (inr (mkVideoInfo (lit "clip") (Some (lit "https://v.example.com/a.mp4"))
            true None),
     [EvGet share; EvImport DomQuery; EvOpen DomQuery share;
      EvWaitVideo; EvQueryVideo; EvGetSrc; EvCloseContext;
      EvClose DomQuery]).
Proof.
  refine (proj1 (dom_video_src_verbatim video_world share
            (mkResponse 200 share body_plain)
            (lit "https://v.example.com/a.mp4") _ _ _ _)).
  - reflexivity.
  - apply search_url_None. vm_compute. reflexivity.
  - exists (page_with_video (lit "https://v.example.com/a.mp4") []),
      (mkElement (inr (Some (lit "https://v.example.com/a.mp4")))).
    repeat split.
  - discriminate.
Defined.

(** C5 as stated fails: the [video] element has a non-empty [src], but
    [context.close()] raises inside the inner [try]; the [src] is dropped,
    the scripts are read, the snapshot is attempted, and the result is the
    exhaustion failure. *)
Lemma src_dropped_when_close_raises :
  dom_video_src close_fails_video_world share
    (lit "https://v.example.com/a.mp4") /\
  fst (extract close_fails_video_world share) = inr exhausted_result /\
  existsb script_scan_event (snd (extract close_fails_video_world share)) =
    true /\
  existsb snapshot_event (snd (extract close_fails_video_world share)) = true.
Proof.
  split; [|vm_compute; repeat split].
  eexists _, (mkElement (inr (Some (lit "https://v.example.com/a.mp4")))).
  repeat split.
Qed.

(** C6 (amended).  On every successful result the media URL holds no
    escaped slash, unless it is the [src] attribute of the [video]
    element, which is returned as the DOM query gave it. *)
Theorem media_url_normalized_unless_dom_src (w : World) (share_url : str)
    (info : VideoInfo) (evs : list event) :
  extract w share_url = (inr info, evs) ->
  success info = true ->
  exists u,
    video_url info = Some u /\
    (occurs escaped_slash u = false \/ dom_video_src w share_url u).
Proof.
  intros E Hok.
  destruct (session_get w share_url) as [[msg|]|resp] eqn:Hget.
  - rewrite (extract_request_exception _ _ _ Hget) in E.
    inversion E; subst. discriminate.
  - rewrite (extract_other_exception _ _ Hget) in E. discriminate.
  - destruct (extract_cases _ _ _ Hget)
      as [(g & _ & E') | (_ & d & evs1 & Ed &
            [(x & -> & _ & E') | (_ & r & evs2 & _ &
               [(html & g & _ & _ & _ & E') | (_ & E')])])];
      rewrite E' in E; inversion E; subst; cbn in *.
    + exists (slash_decode g). split; [reflexivity|]. left. apply slash_decode_clean.
    + exists x. split; [reflexivity|].
      destruct (dom_found _ _ _ _ Ed) as [Hsrc | [g ->]]; [now right|].
      left. apply slash_decode_clean.
    + exists (slash_decode g). split; [reflexivity|]. left. apply slash_decode_clean.
    + discriminate.
Qed.

Lemma media_url_normalized_unless_dom_src_witness :
  exists u,
    Some (lit "https://v.example.com/video/a.mp4") = Some u /\
    (occurs escaped_slash u = false \/ dom_video_src static_world share u).
Proof.
  apply (media_url_normalized_unless_dom_src static_world share
           (mkVideoInfo (lit "clip")
              (Some (lit "https://v.example.com/video/a.mp4")) true None)
           [EvGet share]).
  - vm_compute. reflexivity.
  - reflexivity.
Defined.

(** C6 as stated fails: the [src] attribute of the [video] element holds
    escaped slashes and is returned with them. *)
Lemma dom_src_keeps_escape :
  exists info evs u,
    extract escaped_video_world share = (inr info, evs) /\
    success info = true /\
    video_url info = Some u /\
    occurs escaped_slash u = true.
Proof.
  do 3 eexists. split; [vm_compute; reflexivity|].
  repeat split.
Qed.

(** C7 (amended).  On every result returned, [success] is true exactly
    when the media URL is set, and a media URL that is set is not the
    empty string; [success] is false exactly when the failure message is
    set.  The message is a non-empty text, except when it is the text of a
    [RequestException], raised by the fetch or while printing, whose text
    is itself empty. *)
Theorem result_invariant (out : Stdout) (w : World) (share_url : str)
    (info : VideoInfo) (evs : list event) :
  get_video_info_printing out w share_url [] = (inr info, evs) ->
  (success info = true <-> truthy (video_url info) = true) /\
  (success info = false <-> message info <> None) /\
  (forall m, message info = Some m ->
             m <> [] \/
             session_get w share_url = inl (RequestException []) \/
             exists resp,
               session_get w share_url = inr resp /\
               first_exception out (debug_output resp) =
                 Some (RequestException [])).
Proof.
  rewrite printing_cases.
  assert (Hq : forall resp,
             session_get w share_url = inr resp ->
             extract w share_url = (inr info, evs) ->
             (success info = true <-> truthy (video_url info) = true) /\
             (success info = false <-> message info <> None) /\
             (forall m, message info = Some m -> m <> [])).
  { intros resp Hget E.
    destruct (extract_cases _ _ _ Hget)
      as [(g & Hs & E') | (_ & d & evs1 & Ed &
            [(x & -> & Hx & E') | (_ & r & evs2 & _ &
               [(html & g & _ & _ & Hs & E') | (_ & E')])])];
      rewrite E' in E; inversion E; subst; cbn.
    - apply search_url_nonempty in Hs. apply slash_decode_nonempty in Hs.
      destruct (slash_decode g); [congruence|].
      repeat split; try congruence; try discriminate.
    - destruct x; [congruence|].
      repeat split; try congruence; try discriminate.
    - apply search_url_nonempty in Hs. apply slash_decode_nonempty in Hs.
      destruct (slash_decode g); [congruence|].
      repeat split; try congruence; try discriminate.
    - repeat split; try congruence; try discriminate.
      intros m Hm. inversion Hm. discriminate. }
  destruct (session_get w share_url) as [[msg|]|resp] eqn:Hget.
  - rewrite (extract_request_exception _ _ _ Hget).
    intros E; inversion E; subst. cbn.
    repeat split; try congruence; try discriminate.
    intros m Hm. inversion Hm; subst.
    destruct m; [right; left; reflexivity|left; discriminate].
  - rewrite (extract_other_exception _ _ Hget). discriminate.
  - destruct (first_exception out (debug_output resp)) as [[msg|]|] eqn:Ep.
    + intros E; inversion E; subst. cbn.
      repeat split; try congruence; try discriminate.
      intros m Hm. inversion Hm; subst.
      destruct m; [|left; discriminate].
      right. right. now exists resp.
    + discriminate.
    + intros E. destruct (Hq resp eq_refl E) as (H1 & H2 & H3).
      split; [exact H1|]. split; [exact H2|].
      intros m Hm. left. now apply H3.
Qed.

Lemma result_invariant_witness :
  (success exhausted_result = true <->
   truthy (video_url exhausted_result) = true) /\
  (success exhausted_result = false <-> message exhausted_result <> None) /\
  (forall m, message exhausted_result = Some m ->
             m <> [] \/
             session_get plain_world share = inl (RequestException []) \/
             exists resp,
               session_get plain_world share = inr resp /\
               first_exception accepting (debug_output resp) =
                 Some (RequestException [])).
Proof.
  apply (result_invariant accepting plain_world share exhausted_result
           [EvGet share; EvImport DomQuery; EvImport Snapshot]).
  vm_compute. reflexivity.
Defined.

(** C7 as stated fails: the fetch raises a [RequestException] without
    text; the result is a failure whose message is the empty string. *)
Lemma empty_error_text_gives_empty_reason :
  exists info evs,
    extract silent_failure_world share = (inr info, evs) /\
    success info = false /\
    message info = Some [] /\
    truthy (message info) = false.
Proof.
  do 2 eexists. split; [vm_compute; reflexivity|]. repeat split.
Qed.

(** C8 (amended).  The script scan tries the play address field, then
    the source-without-watermark field, then the download address field,
    then the bare media URL, and the first that is found wins.  When the
    DOM query finds no [video] element and the context and the browser
    close without raising, the result is a success whose media URL is
    the candidate so selected with every escaped slash replaced by a
    slash: the pieces between the escapes, joined by slashes.  This holds
    in particular for a download address field when the two fields before
    it are absent. *)
Theorem script_scan_priority (w : World) (share_url : str)
    (resp : Response) (page : DomPage) (t g : str) (parts : list str) :
  session_get w share_url = inr resp ->
  ~ has_url_field "playAddr" (text resp) ->
  dom_import w = inr tt ->
  dom_goto w share_url = inr page ->
  dom_no_video page ->
  scripts_text_of page t ->
  dom_closes page ->
  script_candidate t g ->
  escape_free parts ->
  g = join escaped_slash parts ->
  fst (extract w share_url) =
  inr (mkVideoInfo (title_of (text resp)) (Some (join [slash] parts))
         true None).
Proof.
  intros Hget N Hi Hg Hv Ht Hcl Hc Hp ->.
  apply search_url_None in N.
  pose proof (dom_scan _ _ _ _ Hi Hg Hv Ht Hcl) as Hd.
  rewrite (scan_candidates_selects _ _ Hc) in Hd.
  pose proof (slash_decode_nonempty _ (script_candidate_nonempty _ _ Hc)) as Hne.
  rewrite (slash_decode_join _ Hp) in Hd, Hne.
  destruct (extract_cases _ _ _ Hget)
    as [(g' & Hs & _) | (_ & d & evs1 & Ed &
          [(x & -> & _ & E') | (Td & _)])].
  - congruence.
  - rewrite Ed in Hd. cbn in Hd. inversion Hd; subst. now rewrite E'.
  - rewrite Ed in Hd. cbn in Hd. inversion Hd; subst.
    destruct (join [slash] parts); [congruence|discriminate].
Qed.

Lemma script_scan_priority_witness :
  fst (extract escaped_script_world share) =
  inr (mkVideoInfo (lit "clip") (Some (lit "https://x/y.mp4")) true None) /\
  fst (extract bare_script_world share) =
  inr (mkVideoInfo (lit "clip") (Some (lit "https://v.x/a.mp4")) true None).
Proof.
  split.
  - apply (script_scan_priority escaped_script_world share
             (mkResponse 200 share body_plain)
             (page_without_video escaped_download_scripts)
             escaped_download_scripts escaped_download
             [lit "https://x"; lit "y.mp4"]).
    + reflexivity.
    + apply search_url_None. vm_compute. reflexivity.
    + reflexivity.
    + reflexivity.
    + left. exists OtherException. reflexivity.
    + left. reflexivity.
    + split; reflexivity.
    + apply (cand_downloadAddr escaped_download_scripts
               (lit "window.data = {") escaped_download (lit "};")).
      * apply search_url_None. vm_compute. reflexivity.
      * apply search_url_None. vm_compute. reflexivity.
      * split; reflexivity.
      * apply first_url_field_check. vm_compute. reflexivity.
    + repeat constructor.
    + reflexivity.
  - apply (script_scan_priority bare_script_world share
             (mkResponse 200 share body_plain)
             (page_without_video bare_scripts)
             bare_scripts escaped_bare
             [lit "https://v.x"; lit "a.mp4"]).
    + reflexivity.
    + apply search_url_None. vm_compute. reflexivity.
    + reflexivity.
    + reflexivity.
    + left. exists OtherException. reflexivity.
    + left. reflexivity.
    + split; reflexivity.
    + apply cand_bare_mp4.
      * apply search_url_None. vm_compute. reflexivity.
      * apply search_url_None. vm_compute. reflexivity.
      * apply search_url_None. vm_compute. reflexivity.
      * exists [], bare_scripts. split; [reflexivity|]. split.
        -- split; [|split].
           ++ exists (lit "https://"), (skipn 9 (firstn 18 escaped_bare)).
              split; [now right|]. split; [discriminate|].
              split; reflexivity.
           ++ exists (lit " is the address"). reflexivity.
           ++ intros g' rest' Hg' E.
              apply (url_chars_stop escaped_bare g' (lit "is the address")
                       rest' 32%N (mp4_url_chars _ Hg') eq_refl).
              exact E.
        -- intros before' g' rest' _ _. apply Nat.le_0_l.
    + repeat constructor.
    + reflexivity.
Defined.

(** C8 as stated fails: no [video] element, the script text holds the
    download address field and no field of higher priority, but
    [browser.close()] raises after the candidate was found; the outer
    handler returns [None] and the result is the exhaustion failure. *)
Lemma candidate_lost_when_close_raises :
  exists page,
    dom_import close_fails_script_world = inr tt /\
    dom_goto close_fails_script_world share = inr page /\
    dom_no_video page /\
    scripts_text_of page download_scripts /\
    url_field_at "downloadAddr" download_scripts (lit "window.data = {")
      (lit "https://x/y.mp4") (lit "};") /\
    ~ has_url_field "playAddr" download_scripts /\
    ~ has_url_field "srcNoMark" download_scripts /\
    browser_close page = inl OtherException /\
    fst (extract close_fails_script_world share) = inr exhausted_result.
Proof.
  eexists. split; [reflexivity|]. split; [reflexivity|].
  split; [left; exists OtherException; reflexivity|].
  split; [left; reflexivity|].
  split; [split; reflexivity|].
  split; [apply search_url_None; vm_compute; reflexivity|].
  split; [apply search_url_None; vm_compute; reflexivity|].
  split; [reflexivity|].
  vm_compute. reflexivity.
Qed.

(** C10.  Slash decoding is exact.  A text that does not hold the six
    characters of the escape, with the upper-case F, is returned as it is,
    whatever other escapes it holds; an escape that follows such a text
    becomes one slash and the text before it is kept.  So a URL without
    the escape is returned unchanged by each stage that decodes: the
    static match, the script scan and the snapshot rescan, the last two
    when the browser they opened closes without raising. *)
Theorem slash_decoding_exact (a b : str) :
  occurs escaped_slash a = false ->
  slash_decode a = a /\
  slash_decode (a ++ escaped_slash ++ b) = a ++ slash :: slash_decode b /\
  (forall w share_url resp pre post,
      session_get w share_url = inr resp ->
      url_field_at "playAddr" (text resp) pre a post ->
      first_url_field "playAddr" (text resp) pre ->
      fst (extract w share_url) =
      inr (mkVideoInfo (title_of (text resp)) (Some a) true None)) /\
  (forall w share_url resp page t,
      session_get w share_url = inr resp ->
      ~ has_url_field "playAddr" (text resp) ->
      dom_import w = inr tt ->
      dom_goto w share_url = inr page ->
      dom_no_video page ->
      scripts_text_of page t ->
      dom_closes page ->
      script_candidate t a ->
      fst (extract w share_url) =
      inr (mkVideoInfo (title_of (text resp)) (Some a) true None)) /\
  (forall w share_url resp page html pre post,
      session_get w share_url = inr resp ->
      ~ has_url_field "playAddr" (text resp) ->
      dom_yields_nothing w share_url ->
      snap_import w = inr tt ->
      snap_goto w share_url = inr page ->
      snap_content page = inr html ->
      snap_browser_close page = inr tt ->
      url_field_at "playAddr" html pre a post ->
      first_url_field "playAddr" html pre ->
      fst (extract w share_url) =
      inr (mkVideoInfo (title_of (text resp)) (Some a) true None)).
Proof.
  intros H. pose proof (slash_decode_id _ H) as Hid.
  split; [exact Hid|]. split; [now apply slash_decode_first|].
  split; [|split].
  - intros w share_url resp pre post Hget F H1.
    rewrite (extract_static _ _ _ _ _ _ Hget F H1). cbn. now rewrite Hid.
  - intros w share_url resp page t Hget N Hi Hg Hv Ht Hcl Hc.
    rewrite (extract_scan _ _ _ _ _ _ Hget N Hi Hg Hv Ht Hcl Hc).
    now rewrite Hid.
  - intros w share_url resp page html pre post Hget N Hd Hi Hg Hc Hb F H1.
    pose proof (render_html _ _ _ _ Hi Hg Hc Hb) as Hr.
    rewrite (extract_snapshot _ _ _ _ _ _ _ Hget N Hd Hr F H1).
    now rewrite Hid.
Qed.

Lemma slash_decoding_exact_witness :
  slash_decode other_escapes = other_escapes /\
  slash_decode (other_escapes ++ escaped_slash ++ other_escapes) =
  other_escapes ++ slash :: other_escapes /\
  fst (extract other_escapes_world share) =
  inr (mkVideoInfo default_title (Some other_escapes) true None).
Proof.
  destruct (slash_decoding_exact other_escapes other_escapes)
    as (H1 & H2 & H3 & _).
  - vm_compute. reflexivity.
  - split; [exact H1|]. split; [rewrite H2, H1; reflexivity|].
    apply (H3 other_escapes_world share
             (mkResponse 200 share body_other_escapes) (lit "{") (lit "}")).
    + reflexivity.
    + split; reflexivity.
    + apply first_url_field_check. vm_compute. reflexivity.
Defined.

(** * Further properties of the code *)

(** ** [extract_video_id] *)

Example extract_video_id_path :
  extract_video_id (lit "https://www.douyin.com/video/7301234567?x=1") =
  Some (lit "7301234567").
Proof. vm_compute. reflexivity. Qed.

Example extract_video_id_query :
  extract_video_id (lit "https://www.iesdouyin.com/share/?video_id=42&u=1") =
  Some (lit "42").
Proof. vm_compute. reflexivity. Qed.

Lemma first_group_cons (p : str -> option str)
    (pats : list (str -> option str)) (s : str) :
  first_group (p :: pats) s =
  match re_search p s with
  | Some g => Some g
  | None => first_group pats s
  end.
Proof. reflexivity. Qed.

Lemma re_search_None_suffix (m : str -> option str) (a b : str) :
  re_search m (a ++ b) = None -> m b = None.
Proof.
  induction a as [|c a IH]; rewrite re_search_unfold; simpl.
  - destruct (m b); [discriminate|reflexivity].
  - destruct (m (c :: a ++ b)); [discriminate|exact IH].
Qed.

Lemma re_search_None_all (m : str -> option str) (s : str) :
  (forall a b, s = a ++ b -> m b = None) -> re_search m s = None.
Proof.
  induction s as [|c s IH]; intros H; rewrite re_search_unfold.
  - now rewrite (H [] [] eq_refl).
  - rewrite (H [] (c :: s) eq_refl). apply IH.
    intros a b ->. now apply (H (c :: a) b).
Qed.

Lemma match_digits_sound (prefix s g : str) :
  match_digits prefix s = Some g ->
  exists rest, digits_at prefix s [] g rest.
Proof.
  unfold match_digits.
  destruct (strip_prefix prefix s) as [s1|] eqn:E; [|discriminate].
  apply strip_prefix_Some in E. subst s.
  destruct (span is_digit s1) as [run rest] eqn:Es. cbn [fst].
  apply span_spec in Es as (-> & Hd & Hr).
  destruct run as [|c run]; [discriminate|].
  intros H; inversion H; subst. exists rest.
  repeat split; auto. discriminate.
Qed.

Lemma span_run (f : char -> bool) (a b : str) :
  forallb f a = true ->
  match b with [] => True | c :: _ => f c = false end ->
  span f (a ++ b) = (a, b).
Proof.
  intros Ha Hb. destruct b as [|c b].
  - rewrite app_nil_r. clear Hb. induction a as [|x a IH]; [reflexivity|].
    simpl in *. apply andb_prop in Ha as [Hx Ha]. now rewrite Hx, (IH Ha).
  - now apply span_app.
Qed.

Lemma match_digits_complete (prefix ds rest : str) :
  ds <> [] -> forallb is_digit ds = true ->
  match rest with [] => True | c :: _ => is_digit c = false end ->
  match_digits prefix (prefix ++ ds ++ rest) = Some ds.
Proof.
  intros Hne Hd Hr. unfold match_digits.
  rewrite strip_prefix_app, (span_run _ _ _ Hd Hr). cbn [fst].
  destruct ds; [congruence|reflexivity].
Qed.

(** A digit after the prefix is enough for the anchored pattern. *)
Lemma match_digits_starts (prefix : str) (c : char) (rest : str) :
  is_digit c = true ->
  exists g, match_digits prefix (prefix ++ c :: rest) = Some g.
Proof.
  intros Hc. unfold match_digits. rewrite strip_prefix_app.
  simpl. rewrite Hc. destruct (span is_digit rest) as [run r]. cbn.
  eauto.
Qed.

Lemma match_digits_None (prefix : str) (c : char) (rest : str) :
  match_digits prefix (prefix ++ c :: rest) = None -> is_digit c = false.
Proof.
  intros H. destruct (is_digit c) eqn:Hc; [|reflexivity].
  destruct (match_digits_starts prefix c rest Hc) as [g Hg]. congruence.
Qed.

Lemma search_digits_None (prefix s : str) :
  re_search (match_digits prefix) s = None <-> no_digits_after prefix s.
Proof.
  split.
  - intros H before c rest ->.
    apply re_search_None_suffix in H. now apply match_digits_None in H.
  - intros H. apply re_search_None_all. intros a b ->.
    destruct (match_digits prefix b) as [g|] eqn:E; [|reflexivity].
    apply match_digits_sound in E as (rest & Hb & Hne & Hd & _).
    simpl in Hb. subst b. destruct g as [|c g]; [congruence|].
    simpl in Hd. apply andb_prop in Hd as [Hc _].
    rewrite (H a c (g ++ rest)) in Hc; [discriminate|reflexivity].
Qed.

Lemma search_digits_found (prefix s g : str) :
  re_search (match_digits prefix) s = Some g ->
  exists before rest, digits_at prefix s before g rest.
Proof.
  induction s as [|c s IH]; rewrite re_search_unfold.
  - destruct (match_digits prefix []) eqn:E; [|discriminate].
    intros H; inversion H; subst.
    apply match_digits_sound in E as [rest E]. now exists [], rest.
  - destruct (match_digits prefix (c :: s)) eqn:E.
    + intros H; inversion H; subst.
      apply match_digits_sound in E as [rest E]. now exists [], rest.
    + intros H. destruct (IH H) as (before & rest & -> & Hrest).
      exists (c :: before), rest. now split.
Qed.

Lemma search_digits_first (prefix s before ds rest : str) :
  digits_at prefix s before ds rest ->
  first_digits prefix s before ->
  re_search (match_digits prefix) s = Some ds.
Proof.
  revert s; induction before as [|c before IH];
    intros s (-> & Hne & Hd & Hr) Hfirst; rewrite re_search_unfold.
  - simpl. now rewrite match_digits_complete.
  - destruct (match_digits prefix ((c :: before) ++ prefix ++ ds ++ rest))
      as [g|] eqn:E.
    + apply match_digits_sound in E as (r' & Hb & Hg & Hgd & _).
      destruct g as [|x g]; [congruence|]. simpl in Hgd.
      apply andb_prop in Hgd as [Hx _].
      specialize (Hfirst [] x (g ++ r') Hb Hx). simpl in Hfirst. lia.
    + simpl. apply IH; [now repeat split|].
      intros b' x r' Hb Hx.
      specialize (Hfirst (c :: b') x r'). simpl in Hfirst.
      rewrite Hb in Hfirst. specialize (Hfirst eq_refl Hx). lia.
Qed.

Lemma first_digits_check (prefix s before : str) :
  no_match_before (match_digits prefix) s (List.length before) = true ->
  first_digits prefix s before.
Proof.
  revert s; induction before as [|c before IH]; intros s H b' x r' Hs Hx.
  - simpl. lia.
  - revert H. simpl. destruct (match_digits prefix s) eqn:E; [discriminate|].
    subst s. destruct b' as [|c' b'].
    + simpl in E. apply match_digits_None in E. congruence.
    + simpl. intros H. apply le_n_S. now apply (IH _ H b' x r').
Qed.

Lemma share_search_None (url : str) :
  re_search (match_digits (lit "/video/")) url = None ->
  re_search (match_digits (lit "/share/video/")) url = None.
Proof.
  intros H. apply search_digits_None in H. apply search_digits_None.
  intros before c rest ->.
  apply (H (before ++ lit "/share") c rest).
  now rewrite <- app_assoc.
Qed.

Lemma extract_video_id_cases (url : str) :
  extract_video_id url =
  match re_search (match_digits (lit "/video/")) url with
  | Some g => Some g
  | None => re_search (match_digits (lit "video_id=")) url
  end.
Proof.
  unfold extract_video_id, id_patterns. rewrite !first_group_cons.
  destruct (re_search (match_digits (lit "/video/")) url) eqn:E;
    [reflexivity|].
  rewrite (share_search_None _ E).
  now destruct (re_search (match_digits (lit "video_id=")) url).
Qed.

(** X1.  The second pattern of [extract_video_id] never decides: a URL in
    which it is found also holds the first pattern, which is tried before
    it, so the result is that of the first and third patterns alone. *)
Theorem share_pattern_is_shadowed (url : str) :
  (re_search (match_digits (lit "/share/video/")) url <> None ->
   re_search (match_digits (lit "/video/")) url <> None) /\
  extract_video_id url =
  first_group [match_digits (lit "/video/"); match_digits (lit "video_id=")]
    url.
Proof.
  split.
  - intros H2 H1. apply H2. now apply share_search_None.
  - rewrite extract_video_id_cases, !first_group_cons.
    destruct (re_search (match_digits (lit "/video/")) url); [reflexivity|].
    now destruct (re_search (match_digits (lit "video_id=")) url).
Qed.

Lemma share_pattern_is_shadowed_witness :
  re_search (match_digits (lit "/video/"))
    (lit "https://www.iesdouyin.com/share/video/73012/?region=CN") <> None.
Proof.
  apply (proj1 (share_pattern_is_shadowed
                  (lit "https://www.iesdouyin.com/share/video/73012/?region=CN"))).
  vm_compute. discriminate.
Defined.

(** X2.  An identifier returned by [extract_video_id] is a non-empty run
    of decimal digits that stands in the URL right after [/video/] or
    after [video_id=], and is not followed by a further digit. *)
Theorem video_id_is_a_digit_run (url g : str) :
  extract_video_id url = Some g ->
  g <> [] /\ forallb is_digit g = true /\
  exists before rest,
    digits_at (lit "/video/") url before g rest \/
    digits_at (lit "video_id=") url before g rest.
Proof.
  rewrite extract_video_id_cases.
  destruct (re_search (match_digits (lit "/video/")) url) as [g1|] eqn:E1.
  - intros H; inversion H; subst.
    apply search_digits_found in E1 as (before & rest & F).
    pose proof F as (_ & Hne & Hd & _). eauto 6.
  - intros E3. apply search_digits_found in E3 as (before & rest & F).
    pose proof F as (_ & Hne & Hd & _). eauto 6.
Qed.

Lemma video_id_is_a_digit_run_witness :
  lit "7301234567" <> [] /\ forallb is_digit (lit "7301234567") = true /\
  exists before rest,
    digits_at (lit "/video/")
      (lit "https://www.douyin.com/video/7301234567?x=1")
      before (lit "7301234567") rest \/
    digits_at (lit "video_id=")
      (lit "https://www.douyin.com/video/7301234567?x=1")
      before (lit "7301234567") rest.
Proof.
  apply (video_id_is_a_digit_run
           (lit "https://www.douyin.com/video/7301234567?x=1")
           (lit "7301234567")).
  vm_compute. reflexivity.
Defined.

(** X3.  [extract_video_id] returns [None] exactly when the URL holds
    neither [/video/] nor [video_id=] followed by a decimal digit; the
    empty URL is such a one. *)
Theorem video_id_absent_iff (url : str) :
  extract_video_id url = None <->
  no_digits_after (lit "/video/") url /\
  no_digits_after (lit "video_id=") url.
Proof.
  rewrite extract_video_id_cases. split.
  - destruct (re_search (match_digits (lit "/video/")) url) eqn:E1;
      [discriminate|].
    intros E3. split; now apply search_digits_None.
  - intros [H1 H3]. apply search_digits_None in H1, H3. now rewrite H1.
Qed.

(** X4.  The path form has priority over the query form: when the URL
    holds [/video/] followed by digits, the identifier is the run of
    digits after the leftmost such place, wherever [video_id=] stands. *)
Theorem path_id_has_priority (url before ds rest : str) :
  digits_at (lit "/video/") url before ds rest ->
  exists g before' rest',
    extract_video_id url = Some g /\
    digits_at (lit "/video/") url before' g rest' /\
    (first_digits (lit "/video/") url before -> g = ds).
Proof.
  intros F. rewrite extract_video_id_cases.
  destruct (re_search (match_digits (lit "/video/")) url) as [g|] eqn:E.
  - destruct (search_digits_found _ _ _ E) as (before' & rest' & F').
    exists g, before', rest'. repeat split; try apply F'.
    intros H. rewrite (search_digits_first _ _ _ _ _ F H) in E. congruence.
  - exfalso. apply search_digits_None in E.
    destruct F as (-> & Hne & Hd & _). destruct ds as [|c ds]; [congruence|].
    simpl in Hd. apply andb_prop in Hd as [Hc _].
    rewrite (E before c (ds ++ rest) eq_refl) in Hc. discriminate.
Qed.

Lemma path_id_has_priority_witness :
  extract_video_id (lit "https://x.example/?video_id=1&next=/video/22") =
  Some (lit "22").
Proof.
  destruct (path_id_has_priority
              (lit "https://x.example/?video_id=1&next=/video/22")
              (lit "https://x.example/?video_id=1&next=")
              (lit "22") [])
    as (g & before' & rest' & E & _ & Hg).
  - repeat split. discriminate.
  - rewrite E, Hg; [reflexivity|].
    apply first_digits_check. vm_compute. reflexivity.
Defined.

Lemma video_id_absent_iff_witness :
  extract_video_id (lit "https://v.douyin.com/abc/") = None.
Proof.
  apply (proj2 (video_id_absent_iff (lit "https://v.douyin.com/abc/"))).
  split; apply search_digits_None; vm_compute; reflexivity.
Defined.

(** ** The extraction pipeline, further *)

(** X5.  [get_video_info] raises exactly when the fetch raises an
    exception that is not a [RequestException], or the fetch returns and
    the first of the four debug prints to raise raises such an exception;
    whatever Playwright does, every other run returns a [VideoInfo]. *)
Theorem pipeline_raises_iff (out : Stdout) (w : World) (share_url : str) :
  (exists e, fst (get_video_info_printing out w share_url []) = inl e) <->
  (session_get w share_url = inl OtherException \/
   exists resp,
     session_get w share_url = inr resp /\
     first_exception out (debug_output resp) = Some OtherException).
Proof.
  rewrite printing_cases.
  assert (Hq : forall resp e,
             session_get w share_url = inr resp ->
             fst (extract w share_url) = inl e -> False).
  { intros resp e Hget He.
    destruct (extract_cases _ _ _ Hget)
      as [(g & _ & E') | (_ & d & evs1 & _ &
            [(x & _ & _ & E') | (_ & r & evs2 & _ &
               [(html & g & _ & _ & _ & E') | (_ & E')])])];
      rewrite E' in He; discriminate. }
  split.
  - intros [e He].
    destruct (session_get w share_url) as [[msg|]|resp] eqn:Hget.
    + rewrite (extract_request_exception _ _ _ Hget) in He. discriminate.
    + now left.
    + right. exists resp. split; [reflexivity|].
      destruct (first_exception out (debug_output resp)) as [[msg|]|] eqn:Ep.
      * discriminate.
      * reflexivity.
      * exfalso. exact (Hq resp e eq_refl He).
  - intros [H | (resp & H & Ep)]; exists OtherException.
    + rewrite H. now rewrite (extract_other_exception _ _ H).
    + rewrite H, Ep. reflexivity.
Qed.

Lemma pipeline_raises_iff_witness :
  exists e,
    fst (get_video_info_printing closed_stdout plain_world share []) = inl e.
Proof.
  apply (proj2 (pipeline_raises_iff closed_stdout plain_world share)).
  right. exists (mkResponse 200 share body_plain). split; reflexivity.
Defined.

(** X6.  The snapshot rescan.  When the body has no play address and the
    DOM query stage ends without one, the rendered HTML is searched,
    provided the browser of the snapshot closes without raising: its
    leftmost play address field gives a success with the decoded URL and
    the title of the static body; without such a field the result is the
    exhaustion failure.  When the close raises, the HTML that was read is
    dropped and the result is the exhaustion failure. *)
Theorem snapshot_rescan (w : World) (share_url : str) (resp : Response)
    (page : SnapPage) (html : str) :
  session_get w share_url = inr resp ->
  ~ has_url_field "playAddr" (text resp) ->
  dom_yields_nothing w share_url ->
  snap_import w = inr tt ->
  snap_goto w share_url = inr page ->
  snap_content page = inr html ->
  (snap_browser_close page = inr tt ->
   forall pre v post,
     url_field_at "playAddr" html pre v post ->
     first_url_field "playAddr" html pre ->
     fst (extract w share_url) =
     inr (mkVideoInfo (title_of (text resp)) (Some (slash_decode v))
            true None)) /\
  (snap_browser_close page = inr tt ->
   ~ has_url_field "playAddr" html ->
   fst (extract w share_url) = inr exhausted_result) /\
  (forall e, snap_browser_close page = inl e ->
   fst (extract w share_url) = inr exhausted_result).
Proof.
  intros Hget N Hd Hi Hg Hc.
  split; [|split].
  - intros Hb pre v post F H1.
    apply (extract_snapshot _ _ _ html pre v post Hget N Hd); trivial.
    now apply (render_html _ _ page).
  - intros Hb N'.
    apply (extract_no_snapshot _ _ _ Hget N Hd).
    right. exists html. split; [|exact N'].
    now apply (render_html _ _ page).
  - intros e Hb.
    apply (extract_no_snapshot _ _ _ Hget N Hd).
    left. unfold_py. rewrite Hi. cbn. rewrite Hg. cbn.
    rewrite Hc. cbn. now rewrite Hb.
Qed.

Lemma snapshot_rescan_witness :
  fst (extract snapshot_world share) =
  inr (mkVideoInfo (lit "clip")
         (Some (lit "https://v.example.com/video/a.mp4")) true None).
Proof.
  refine (proj1 (snapshot_rescan snapshot_world share
                   (mkResponse 200 share body_plain)
                   (mkSnapPage (inr body_static) (inr tt))
                   body_static _ _ _ _ _ _) _
            (lit "{" ++ quoted_field "desc" "clip" ++ lit ",")
            escaped_src (lit "}") _ _).
  - reflexivity.
  - apply search_url_None. vm_compute. reflexivity.
  - exists None. split; reflexivity.
  - reflexivity.
  - reflexivity.
  - reflexivity.
  - reflexivity.
  - split; reflexivity.
  - apply first_url_field_check. vm_compute. reflexivity.
Defined.

Lemma extract_dom_result (w : World) (share_url : str) (resp : Response)
    (x : str) :
  session_get w share_url = inr resp ->
  ~ has_url_field "playAddr" (text resp) ->
  fst (_extract_playaddr_with_playwright w share_url []) = inr (Some x) ->
  x <> [] ->
  fst (extract w share_url) =
  inr (mkVideoInfo (title_of (text resp)) (Some x) true None).
Proof.
  intros Hget N Hd Hx. apply search_url_None in N.
  destruct (extract_cases _ _ _ Hget)
    as [(g' & Hs & _) | (_ & d & evs1 & Ed &
          [(x' & -> & _ & E') | (Td & _)])].
  - congruence.
  - rewrite Ed in Hd. cbn in Hd. inversion Hd; subst. now rewrite E'.
  - rewrite Ed in Hd. cbn in Hd. inversion Hd; subst.
    destruct x; [congruence|discriminate].
Qed.

(** X7.  A [video] element without a usable [src] (the attribute is
    missing or empty, or reading it raises) does not end the DOM query
    stage: the scripts are scanned as when there is no element, and, when
    the context and the browser close without raising, the selected
    candidate is returned slash-decoded. *)
Theorem video_without_src_falls_back (w : World) (share_url : str)
    (resp : Response) (page : DomPage) (t g : str) :
  session_get w share_url = inr resp ->
  ~ has_url_field "playAddr" (text resp) ->
  dom_import w = inr tt ->
  dom_goto w share_url = inr page ->
  video_without_src page ->
  scripts_text_of page t ->
  dom_closes page ->
  script_candidate t g ->
  fst (extract w share_url) =
  inr (mkVideoInfo (title_of (text resp)) (Some (slash_decode g)) true None).
Proof.
  intros Hget N Hi Hg (Hw & el & Hq & Ha) Ht (Hcc & Hbc) Hc.
  apply (extract_dom_result _ _ _ _ Hget N).
  - rewrite <- (scan_candidates_selects _ _ Hc).
    unfold_py. rewrite Hi. cbn. rewrite Hg. cbn. rewrite Hw. cbn.
    rewrite Hq. cbn.
    destruct Ha as [[e Ha] | [Ha | Ha]]; destruct Ht as [Ht | [[e' He] Ht]];
      rewrite Ha; cbn; rewrite ?He; cbn; rewrite Ht; cbn;
      destruct (scan_candidates candidate_patterns t); cbn;
      rewrite ?Hcc; cbn; rewrite ?Hbc; reflexivity.
  - apply slash_decode_nonempty. now apply (script_candidate_nonempty t).
Qed.

Lemma video_without_src_falls_back_witness :
  fst (extract bare_video_world share) =
  inr (mkVideoInfo (lit "clip") (Some (lit "https://x/y.mp4")) true None).
Proof.
  apply (video_without_src_falls_back bare_video_world share
           (mkResponse 200 share body_plain)
           (page_with_bare_video download_scripts)
           download_scripts (lit "https://x/y.mp4")).
  - reflexivity.
  - apply search_url_None. vm_compute. reflexivity.
  - reflexivity.
  - reflexivity.
  - split; [reflexivity|]. exists (mkElement (inr None)).
    split; [reflexivity|]. right. left. reflexivity.
  - left. reflexivity.
  - split; reflexivity.
  - apply (cand_downloadAddr download_scripts (lit "window.data = {")
             (lit "https://x/y.mp4") (lit "};")).
    + apply search_url_None. vm_compute. reflexivity.
    + apply search_url_None. vm_compute. reflexivity.
    + split; reflexivity.
    + apply first_url_field_check. vm_compute. reflexivity.
Defined.

Lemma slash_decode_scheme (scheme rest : str) :
  scheme = lit "http://" \/ scheme = lit "https://" ->
  slash_decode (scheme ++ rest) = scheme ++ slash_decode rest.
Proof.
  intros [-> | ->]; cbn [lit list_ascii_of_string List.map app];
    cbn; rewrite !slash_decode_copy by reflexivity; reflexivity.
Qed.

Lemma has_scheme_decoded (scheme rest : str) :
  scheme = lit "http://" \/ scheme = lit "https://" ->
  has_scheme (slash_decode (scheme ++ rest)) = true.
Proof.
  intros H. rewrite (slash_decode_scheme _ _ H). unfold has_scheme.
  destruct H as [-> | ->].
  - now rewrite starts_with_app.
  - rewrite (starts_with_app (lit "https://")). apply orb_true_r.
Qed.

Lemma search_url_scheme (key : string) (body g : str) :
  search_quoted_url key body = Some g ->
  has_scheme (slash_decode g) = true.
Proof.
  intros H. apply search_url_found in H as (pre & post & [_ Hg] & _).
  apply absolute_http_url_inv in Hg as (scheme & rest & -> & _ & _ & Hm).
  specialize (Hm []). apply match_scheme_spec in Hm as [_ Hs].
  now apply has_scheme_decoded.
Qed.

Lemma bare_mp4_scheme (t g : str) :
  re_search match_bare_mp4 t = Some g -> has_scheme (slash_decode g) = true.
Proof.
  intros H. apply re_search_matcher in H as [s' H].
  unfold match_bare_mp4 in H.
  destruct (match_scheme s') as [[scheme s1]|] eqn:E; [|discriminate].
  apply match_scheme_spec in E as [_ Hs].
  destruct (strip_prefix (lit "v") s1); [|discriminate].
  destruct (last_mp4 _); [|discriminate].
  inversion H. now apply has_scheme_decoded.
Qed.

Lemma scan_candidates_scheme (t x : str) :
  scan_candidates candidate_patterns t = Some x -> has_scheme x = true.
Proof.
  unfold candidate_patterns. rewrite !scan_candidates_cons.
  fold (search_quoted_url "playAddr" t) (search_quoted_url "srcNoMark" t)
    (search_quoted_url "downloadAddr" t).
  destruct (search_quoted_url "playAddr" t) eqn:E1.
  { intros H; inversion H. eapply search_url_scheme; eauto. }
  destruct (search_quoted_url "srcNoMark" t) eqn:E2.
  { intros H; inversion H. eapply search_url_scheme; eauto. }
  destruct (search_quoted_url "downloadAddr" t) eqn:E3.
  { intros H; inversion H. eapply search_url_scheme; eauto. }
  destruct (re_search match_bare_mp4 t) eqn:E4; [|discriminate].
  intros H; inversion H. eapply bare_mp4_scheme; eauto.
Qed.

Lemma dom_found_scheme (w : World) (u x : str) (evs : list event) :
  _extract_playaddr_with_playwright w u [] = (inr (Some x), evs) ->
  dom_video_src w u x \/ has_scheme x = true.
Proof.
  unfold_py. split_cases; intros H; inversion H; subst;
    try (right; eapply scan_candidates_scheme; eassumption).
  left. repeat match goal with v : unit |- _ => destruct v end.
  unfold dom_video_src. eauto 10.
Qed.

(** X8.  A media URL found by a pattern (static match, script scan or
    snapshot rescan) still starts with [http://] or [https://] after
    decoding; only the [src] attribute of a [video] element is returned
    without any check of its form. *)
Theorem media_url_is_http_unless_dom_src (w : World) (share_url : str)
    (info : VideoInfo) (evs : list event) :
  extract w share_url = (inr info, evs) ->
  success info = true ->
  exists v,
    video_url info = Some v /\
    (has_scheme v = true \/ dom_video_src w share_url v).
Proof.
  intros E Hok.
  destruct (session_get w share_url) as [[msg|]|resp] eqn:Hget.
  - rewrite (extract_request_exception _ _ _ Hget) in E.
    inversion E; subst. discriminate.
  - rewrite (extract_other_exception _ _ Hget) in E. discriminate.
  - destruct (extract_cases _ _ _ Hget)
      as [(g & Hs & E') | (_ & d & evs1 & Ed &
            [(x & -> & _ & E') | (_ & r & evs2 & _ &
               [(html & g & _ & _ & Hs & E') | (_ & E')])])];
      rewrite E' in E; inversion E; subst; cbn in *.
    + exists (slash_decode g). split; [reflexivity|]. left.
      eapply search_url_scheme; eauto.
    + exists x. split; [reflexivity|].
      destruct (dom_found_scheme _ _ _ _ Ed); auto.
    + exists (slash_decode g). split; [reflexivity|]. left.
      eapply search_url_scheme; eauto.
    + discriminate.
Qed.

Lemma media_url_is_http_unless_dom_src_witness :
  exists v,
    Some (lit "https://x/y.mp4") = Some v /\
    (has_scheme v = true \/ dom_video_src script_world share v).
Proof.
  apply (media_url_is_http_unless_dom_src script_world share
           (mkVideoInfo (lit "clip") (Some (lit "https://x/y.mp4")) true None)
           [EvGet share; EvImport DomQuery; EvOpen DomQuery share;
            EvWaitVideo; EvEvalScripts; EvCloseContext; EvClose DomQuery]).
  - vm_compute. reflexivity.
  - reflexivity.
Defined.

(** X9.  Decoding twice is decoding once, since the replacement itself
    produces no escape; and decoding never lengthens a text. *)
Theorem slash_decode_idempotent (s : str) :
  slash_decode (slash_decode s) = slash_decode s /\
  (List.length (slash_decode s) <= List.length s)%nat.
Proof.
  split.
  - apply slash_decode_id. apply slash_decode_clean.
  - induction s as [|b IH|c t E IH] using slash_decode_ind.
    + apply Nat.le_refl.
    + rewrite slash_decode_escape, length_app. simpl. lia.
    + rewrite (slash_decode_copy _ _ E). simpl. lia.
Qed.

Lemma opens_app (m : mode) (a b : list event) :
  opens m (a ++ b) = (opens m a + opens m b)%nat.
Proof.
  induction a as [|ev a IH]; [reflexivity|].
  destruct ev as [| | [] | | | | | | |]; destruct m; simpl; rewrite ?IH;
    reflexivity.
Qed.

Lemma render_calls_at_app (u : str) (a b : list event) :
  render_calls_at u a -> render_calls_at u b -> render_calls_at u (a ++ b).
Proof.
  induction a as [|ev a IH]; [auto|].
  destruct ev; simpl; tauto.
Qed.

Lemma dom_calls (w : World) (u : str) :
  render_calls_at u (snd (_extract_playaddr_with_playwright w u [])) /\
  (opens DomQuery (snd (_extract_playaddr_with_playwright w u [])) <= 1)%nat /\
  opens Snapshot (snd (_extract_playaddr_with_playwright w u [])) = O.
Proof. unfold_py. split_cases; cbn; auto. Qed.

Lemma render_calls (w : World) (u : str) :
  render_calls_at u (snd (_render_with_playwright w u [])) /\
  opens DomQuery (snd (_render_with_playwright w u [])) = O /\
  (opens Snapshot (snd (_render_with_playwright w u [])) <= 1)%nat.
Proof. unfold_py. split_cases; cbn; auto. Qed.

(** X10.  One pass, no retry.  A run of [get_video_info] fetches once,
    first; after that it opens at most one page in each Playwright mode,
    and each page is opened at the share URL it was given, not at the URL
    the fetch was redirected to. *)
Theorem single_pass (w : World) (share_url : str) :
  exists rest,
    snd (extract w share_url) = EvGet share_url :: rest /\
    render_calls_at share_url rest /\
    (opens DomQuery rest <= 1)%nat /\
    (opens Snapshot rest <= 1)%nat.
Proof.
  destruct (session_get w share_url) as [[msg|]|resp] eqn:Hget.
  - rewrite (extract_request_exception _ _ _ Hget). exists []. cbn. auto.
  - rewrite (extract_other_exception _ _ Hget). exists []. cbn. auto.
  - pose proof (dom_calls w share_url) as (D1 & D2 & D3).
    pose proof (render_calls w share_url) as (R1 & R2 & R3).
    destruct (extract_cases _ _ _ Hget)
      as [(g & _ & E') | (_ & d & evs1 & Ed &
            [(x & _ & _ & E') | (_ & r & evs2 & Er &
               [(html & g & _ & _ & _ & E') | (_ & E')])])];
      rewrite E'; cbn [snd]; rewrite ?Ed in *; rewrite ?Er in *;
      cbn [snd] in *.
    + exists []. cbn. auto.
    + exists evs1. repeat split; auto. lia.
    + exists (evs1 ++ evs2). rewrite !opens_app.
      repeat split; [now apply render_calls_at_app|lia|lia].
    + exists (evs1 ++ evs2). rewrite !opens_app.
      repeat split; [now apply render_calls_at_app|lia|lia].
Qed.

(** ** [download_video] *)

Lemma str_eqb_refl (a : str) : str_eqb a a = true.
Proof. induction a as [|x a IH]; [reflexivity|]. simpl. now rewrite N.eqb_refl. Qed.

Lemma str_eqb_eq (a b : str) : str_eqb a b = true <-> a = b.
Proof.
  split; [|intros ->; apply str_eqb_refl].
  revert b; induction a as [|x a IH]; intros [|y b] H; try discriminate;
    [reflexivity|].
  simpl in H. apply andb_prop in H as [Hx Ha].
  apply N.eqb_eq in Hx. subst. now rewrite (IH _ Ha).
Qed.

Lemma str_eqb_neq (a b : str) : str_eqb a b = false <-> a <> b.
Proof.
  split.
  - intros H ->. now rewrite str_eqb_refl in H.
  - intros H. destruct (str_eqb a b) eqn:E; [|reflexivity].
    apply str_eqb_eq in E. contradiction.
Qed.

Ltac unfold_io :=
  unfold download_video, os_makedirs, time_time, session_get_stream,
    open_file, write, io_try, io_bind, io_ret, io_raise, io_answer.

Lemma write_chunks_spec (filepath : str) (cs : list bytes) (n : N)
    (s : Machine) (c0 : bytes) (rest : list (str * bytes)) :
  files s = (filepath, c0) :: rest ->
  write_chunks filepath cs n s =
  (inr (n + N.of_nat (List.length (List.concat cs)))%N,
   mkMachine (calls s) (stdin s) ((filepath, c0 ++ List.concat cs) :: rest)
     (made s) (requested s) (clock_reads s)).
Proof.
  revert n s c0; induction cs as [|chunk cs IH]; intros n s c0 Hf.
  - destruct s; simpl in *. subst. now rewrite N.add_0_r, app_nil_r.
  - destruct chunk as [|b chunk].
    + simpl. apply IH. exact Hf.
    + cbn [write_chunks]. unfold io_bind, write. rewrite Hf.
      cbn [append_file]. rewrite str_eqb_refl.
      rewrite (IH _ _ (c0 ++ b :: chunk)) by reflexivity.
      cbn [calls stdin files made requested clock_reads List.concat].
      rewrite <- app_assoc, length_app, Nat2N.inj_add, N.add_assoc.
      reflexivity.
Qed.

Lemma read_file_other (p q : str) (c : bytes) (fs : list (str * bytes)) :
  p <> q -> read_file p ((q, c) :: fs) = read_file p fs.
Proof.
  intros H. simpl. destruct (str_eqb q p) eqn:E; [|reflexivity].
  apply str_eqb_eq in E. congruence.
Qed.

Lemma read_file_same (p : str) (c : bytes) (fs : list (str * bytes)) :
  read_file p ((p, c) :: fs) = Some c.
Proof. simpl. now rewrite str_eqb_refl. Qed.

(** What [download_video] does once the file is open. *)
Lemma download_video_opened (h : Host) (v : option str) (save_path : str)
    (s : Machine) (r : Stream) (total : Z) :
  makedirs h save_path = inr tt ->
  stream_get h v = inr r ->
  raise_for_status r = inr tt ->
  content_length r = inr total ->
  open_wb h (download_path h save_path (clock_reads s)) = inr tt ->
  let path := download_path h save_path (clock_reads s) in
  let after c :=
    mkMachine (calls s) (stdin s) ((path, c) :: files s)
      (save_path :: made s) (v :: requested s) (S (clock_reads s)) in
  download_video h v save_path s =
  if (total =? 0)%Z then
    match content r with
    | inr data => (inr (Some path), after data)
    | inl e =>
        if request_exception e then (inr None, after [])
        else (inl e, after [])
    end
  else
    match chunks_end r with
    | None => (inr (Some path), after (List.concat (chunks r)))
    | Some e =>
        if request_exception e
        then (inr None, after (List.concat (chunks r)))
        else (inl e, after (List.concat (chunks r)))
    end.
Proof.
  intros Hm Hg Hs Hc Ho. unfold download_path in *. cbn in Ho. cbv zeta.
  unfold_io.
  rewrite Hm. cbn. rewrite Hg. cbn. rewrite Hs, Hc. cbn.
  rewrite Ho. cbn.
  destruct (total =? 0)%Z.
  - destruct (content r) as [e|data]; cbn.
    + destruct (request_exception e); reflexivity.
    + rewrite str_eqb_refl. reflexivity.
  - erewrite write_chunks_spec by reflexivity. cbn.
    destruct (chunks_end r) as [e|]; cbn; [|reflexivity].
    destruct (request_exception e); reflexivity.
Qed.

(** X11.  When the request for the video fails with a
    [RequestException], be it a transport error or the error status that
    [raise_for_status] reports, [download_video] returns [None] and writes
    no file; the directory has been made and the URL requested. *)
Theorem failed_request_writes_nothing (h : Host) (v : option str)
    (save_path : str) (s : Machine) (msg : str) :
  makedirs h save_path = inr tt ->
  stream_get h v = inl (RequestException msg) \/
  (exists r, stream_get h v = inr r /\
             raise_for_status r = inl (RequestException msg)) ->
  exists s',
    download_video h v save_path s = (inr None, s') /\
    files s' = files s /\
    made s' = save_path :: made s /\
    requested s' = v :: requested s.
Proof.
  intros Hm [Hg | (r & Hg & Hs)]; unfold_io; rewrite Hm; cbn;
    rewrite Hg; cbn; rewrite ?Hs; cbn; eexists; repeat split.
Qed.

(** X12.  When the directory can be made, the response is good and the
    file can be opened, [download_video] returns the path that
    [os.path.join] makes of [save_path] and [video_<seconds>.mp4], and the
    file at that path holds the bytes the
    response delivered: its content when no length is announced, else
    the chunks in the order received.  No other file is changed. *)
Theorem download_writes_whole_body (h : Host) (v : option str)
    (save_path : str) (s : Machine) (r : Stream) (total : Z)
    (data : bytes) :
  makedirs h save_path = inr tt ->
  stream_get h v = inr r ->
  raise_for_status r = inr tt ->
  content_length r = inr total ->
  open_wb h (download_path h save_path (clock_reads s)) = inr tt ->
  received r total = Some data ->
  exists s',
    download_video h v save_path s =
      (inr (Some (download_path h save_path (clock_reads s))), s') /\
    read_file (download_path h save_path (clock_reads s)) (files s') =
      Some data /\
    forall p, p <> download_path h save_path (clock_reads s) ->
              read_file p (files s') = read_file p (files s).
Proof.
  intros Hm Hg Hs Hc Ho Hr.
  rewrite (download_video_opened _ _ _ _ _ _ Hm Hg Hs Hc Ho).
  unfold received in Hr. destruct (total =? 0)%Z.
  - destruct (content r) as [e|d]; [discriminate|]. inversion Hr; subst.
    eexists. split; [reflexivity|]. cbn [files]. split.
    + apply read_file_same.
    + intros p Hp. now apply read_file_other.
  - destruct (chunks_end r); [discriminate|]. inversion Hr; subst.
    eexists. split; [reflexivity|]. cbn [files]. split.
    + apply read_file_same.
    + intros p Hp. now apply read_file_other.
Qed.

(** X13.  When the transfer breaks off with a [RequestException] after
    the file was opened, [download_video] returns [None], yet the file is
    left behind: empty, or holding the chunks received so far.  What was
    stored under that path before is gone. *)
Theorem interrupted_download_leaves_file (h : Host) (v : option str)
    (save_path : str) (s : Machine) (r : Stream) (total : Z)
    (partial : bytes) :
  makedirs h save_path = inr tt ->
  stream_get h v = inr r ->
  raise_for_status r = inr tt ->
  content_length r = inr total ->
  open_wb h (download_path h save_path (clock_reads s)) = inr tt ->
  interrupted r total = Some partial ->
  exists s',
    download_video h v save_path s = (inr None, s') /\
    read_file (download_path h save_path (clock_reads s)) (files s') =
      Some partial.
Proof.
  intros Hm Hg Hs Hc Ho Hr.
  rewrite (download_video_opened _ _ _ _ _ _ Hm Hg Hs Hc Ho).
  unfold interrupted in Hr. destruct (total =? 0)%Z.
  - destruct (content r) as [[m|]|d]; try discriminate. inversion Hr; subst.
    eexists. split; [reflexivity|]. apply read_file_same.
  - destruct (chunks_end r) as [[m|]|]; try discriminate.
    inversion Hr; subst.
    eexists. split; [reflexivity|]. apply read_file_same.
Qed.

Lemma failed_request_writes_nothing_witness :
  exists s',
    download_video
      (still_host (fun _ => inl (RequestException (lit "timed out"))))
      media (lit "downloads") (boot []) = (inr None, s') /\
    files s' = [] /\
    made s' = [lit "downloads"] /\
    requested s' = [media].
Proof.
  apply (failed_request_writes_nothing
           (still_host (fun _ => inl (RequestException (lit "timed out"))))
           media (lit "downloads") (boot []) (lit "timed out")).
  - reflexivity.
  - left. reflexivity.
Defined.

Lemma download_writes_whole_body_witness :
  exists s',
    download_video (still_host (fun _ => inr (chunked_stream two_chunks None)))
      media (lit "downloads") (boot []) =
      (inr (Some (lit "downloads/video_1730000000.mp4")), s') /\
    read_file (lit "downloads/video_1730000000.mp4") (files s') =
      Some [Byte.x00; Byte.x01; Byte.x02] /\
    forall p, p <> lit "downloads/video_1730000000.mp4" ->
              read_file p (files s') = read_file p [].
Proof.
  apply (download_writes_whole_body
           (still_host (fun _ => inr (chunked_stream two_chunks None)))
           media (lit "downloads") (boot [])
           (chunked_stream two_chunks None) 3%Z
           [Byte.x00; Byte.x01; Byte.x02]); reflexivity.
Defined.

Lemma interrupted_download_leaves_file_witness :
  exists s',
    download_video
      (still_host
         (fun _ => inr (chunked_stream two_chunks
                          (Some (RequestException (lit "reset"))))))
      media (lit "downloads") (boot []) = (inr None, s') /\
    read_file (lit "downloads/video_1730000000.mp4") (files s') =
      Some [Byte.x00; Byte.x01; Byte.x02].
Proof.
  apply (interrupted_download_leaves_file
           (still_host
              (fun _ => inr (chunked_stream two_chunks
                               (Some (RequestException (lit "reset"))))))
           media (lit "downloads") (boot [])
           (chunked_stream two_chunks (Some (RequestException (lit "reset"))))
           3%Z [Byte.x00; Byte.x01; Byte.x02]); reflexivity.
Defined.

(** X14.  [download_video] catches [RequestException] only.  An
    exception that leaves it is the one [os.makedirs] raised, or it is not
    a [RequestException]; and a length header that is not a number makes
    it raise before any file is opened. *)
Theorem download_lets_other_exceptions_through (h : Host) (v : option str)
    (save_path : str) (s : Machine) :
  (forall e s',
      download_video h v save_path s = (inl e, s') ->
      makedirs h save_path = inl e \/ e = OtherException) /\
  (forall r,
      makedirs h save_path = inr tt ->
      stream_get h v = inr r ->
      raise_for_status r = inr tt ->
      content_length r = inl OtherException ->
      exists s',
        download_video h v save_path s = (inl OtherException, s') /\
        files s' = files s).
Proof.
  split.
  - intros e s'. unfold_io.
    destruct (makedirs h save_path) as [e0|[]]; cbn.
    { intros H; inversion H; auto. }
    destruct (stream_get h v) as [[m|]|r]; cbn;
      try (intros H; inversion H; auto; fail).
    destruct (raise_for_status r) as [[m|]|[]]; cbn;
      try (intros H; inversion H; auto; fail).
    destruct (content_length r) as [[m|]|total]; cbn;
      try (intros H; inversion H; auto; fail).
    destruct (open_wb h _) as [[m|]|[]]; cbn;
      try (intros H; inversion H; auto; fail).
    destruct (total =? 0)%Z.
    + destruct (content r) as [[m|]|d]; cbn;
        intros H; inversion H; auto.
    + erewrite write_chunks_spec by reflexivity. cbn.
      destruct (chunks_end r) as [[m|]|]; cbn;
        intros H; inversion H; auto.
  - intros r Hm Hg Hs Hc. unfold_io. rewrite Hm. cbn. rewrite Hg. cbn.
    rewrite Hs, Hc. cbn. eexists. split; reflexivity.
Qed.

Lemma download_lets_other_exceptions_through_witness :
  exists s',
    download_video
      (still_host
         (fun _ => inr (mkStream (inr tt) (inl OtherException) (inr [])
                          [] None)))
      media (lit "downloads") (boot []) = (inl OtherException, s') /\
    files s' = [].
Proof.
  apply (proj2 (download_lets_other_exceptions_through
                  (still_host
                     (fun _ => inr (mkStream (inr tt) (inl OtherException)
                                      (inr []) [] None)))
                  media (lit "downloads") (boot []))
           (mkStream (inr tt) (inl OtherException) (inr []) [] None));
    reflexivity.
Defined.

(** X15.  The file name holds the time in whole seconds only.  Two
    downloads into the same directory within one second get the same
    path, and the file of the first is replaced by that of the second. *)
Theorem same_second_downloads_collide (h : Host) (v1 v2 : option str)
    (save_path : str) (s : Machine) (r1 r2 : Stream) (total1 total2 : Z)
    (data1 data2 : bytes) :
  makedirs h save_path = inr tt ->
  stream_get h v1 = inr r1 -> stream_get h v2 = inr r2 ->
  raise_for_status r1 = inr tt -> raise_for_status r2 = inr tt ->
  content_length r1 = inr total1 -> content_length r2 = inr total2 ->
  received r1 total1 = Some data1 -> received r2 total2 = Some data2 ->
  open_wb h (download_path h save_path (clock_reads s)) = inr tt ->
  clock h (S (clock_reads s)) = clock h (clock_reads s) ->
  exists s1 s2,
    download_video h v1 save_path s =
      (inr (Some (download_path h save_path (clock_reads s))), s1) /\
    download_video h v2 save_path s1 =
      (inr (Some (download_path h save_path (clock_reads s))), s2) /\
    read_file (download_path h save_path (clock_reads s)) (files s2) =
      Some data2.
Proof.
  intros Hm Hg1 Hg2 Hs1 Hs2 Hc1 Hc2 Hr1 Hr2 Ho Hclock.
  assert (Hp : download_path h save_path (S (clock_reads s)) =
               download_path h save_path (clock_reads s)).
  { unfold download_path. now rewrite Hclock. }
  pose proof (download_video_opened _ _ _ s _ _ Hm Hg1 Hs1 Hc1 Ho) as E1.
  cbv zeta in E1.
  assert (F1 : exists s1,
             download_video h v1 save_path s =
               (inr (Some (download_path h save_path (clock_reads s))), s1) /\
             clock_reads s1 = S (clock_reads s)).
  { rewrite E1. unfold received in Hr1. destruct (total1 =? 0)%Z.
    - destruct (content r1); [discriminate|]. eexists. split; reflexivity.
    - destruct (chunks_end r1); [discriminate|]. eexists. split; reflexivity. }
  destruct F1 as (s1 & F1 & Hn). exists s1.
  assert (Ho' : open_wb h (download_path h save_path (clock_reads s1)) = inr tt)
    by now rewrite Hn, Hp.
  pose proof (download_video_opened _ _ _ s1 _ _ Hm Hg2 Hs2 Hc2 Ho') as E2.
  cbv zeta in E2. rewrite Hn, Hp in E2.
  unfold received in Hr2. destruct (total2 =? 0)%Z.
  - destruct (content r2); [discriminate|]. inversion Hr2; subst.
    eexists. split; [exact F1|]. split; [exact E2|]. apply read_file_same.
  - destruct (chunks_end r2); [discriminate|]. inversion Hr2; subst.
    eexists. split; [exact F1|]. split; [exact E2|]. apply read_file_same.
Qed.

Lemma same_second_downloads_collide_witness :
  exists s1 s2,
    download_video (still_host two_videos) media (lit "downloads") (boot []) =
      (inr (Some (lit "downloads/video_1730000000.mp4")), s1) /\
    download_video (still_host two_videos) (Some (lit "https://x/z.mp4"))
      (lit "downloads") s1 =
      (inr (Some (lit "downloads/video_1730000000.mp4")), s2) /\
    read_file (lit "downloads/video_1730000000.mp4") (files s2) =
      Some [Byte.xff].
Proof.
  apply (same_second_downloads_collide (still_host two_videos)
           media (Some (lit "https://x/z.mp4")) (lit "downloads") (boot [])
           (chunked_stream two_chunks None) (plain_stream [Byte.xff])
           3%Z 0%Z [Byte.x00; Byte.x01; Byte.x02] [Byte.xff]);
    reflexivity.
Defined.

(** ** [safe_download_example] *)

Lemma safe_download_example_cases (h : Host) (w : World) (share_url : str)
    (s : Machine) (info : VideoInfo) (log : list event) :
  get_video_info w share_url (calls s) = (inr info, log) ->
  safe_download_example h w share_url s =
  if negb (success info) then (inr false, with_calls s log)
  else
    match stdin s with
    | [] => (inl OtherException, with_calls s log)
    | line :: rest =>
        if negb (str_eqb (lower h (strip line)) (lit "y"))
        then (inr false, with_stdin (with_calls s log) rest)
        else
          match rest with
          | [] => (inl OtherException, with_stdin (with_calls s log) [])
          | line' :: rest' =>
              match download_video h (video_url info)
                      (chosen_directory line')
                      (with_stdin (with_calls s log) rest') with
              | (inl e, s') => (inl e, s')
              | (inr result, s') => (inr (truthy result), s')
              end
          end
    end.
Proof.
  intros E. destruct s as [c0 lines fs ms rs n]. cbn [calls] in E.
  unfold safe_download_example, io_extract, io_bind, input, io_ret,
    with_calls, with_stdin.
  cbv zeta. cbn [calls stdin files made requested clock_reads]. rewrite E.
  destruct (success info); cbn [negb]; [|reflexivity].
  cbn [calls stdin files made requested clock_reads].
  destruct lines as [|line rest]; [reflexivity|].
  destruct (str_eqb (lower h (strip line)) (lit "y")); cbn [negb];
    [|reflexivity].
  cbn [calls stdin files made requested clock_reads].
  destruct rest as [|line' rest']; [reflexivity|].
  fold (chosen_directory line').
  match goal with |- context [download_video ?a ?b ?c ?d] =>
    destruct (download_video a b c d) as [[e|result] s'] end;
    [reflexivity|].
  destruct (truthy result); reflexivity.
Qed.

Lemma safe_download_example_raises (h : Host) (w : World) (share_url : str)
    (s : Machine) (e : exn) (log : list event) :
  get_video_info w share_url (calls s) = (inl e, log) ->
  safe_download_example h w share_url s = (inl e, with_calls s log).
Proof.
  intros E. unfold safe_download_example, io_extract, io_bind.
  now rewrite E.
Qed.

Lemma write_chunks_frame (filepath : str) (cs : list bytes) (n : N)
    (s : Machine) :
  exists total fs,
    write_chunks filepath cs n s =
    (inr total,
     mkMachine (calls s) (stdin s) fs (made s) (requested s)
       (clock_reads s)).
Proof.
  revert n s; induction cs as [|chunk cs IH]; intros n s.
  - exists n, (files s). now destruct s.
  - destruct chunk as [|b chunk]; [apply IH|].
    cbn [write_chunks]. unfold io_bind, write.
    destruct (IH (n + N.of_nat (List.length (b :: chunk)))%N
                (mkMachine (calls s) (stdin s)
                   (append_file filepath (b :: chunk) (files s))
                   (made s) (requested s) (clock_reads s)))
      as (total & fs & E).
    rewrite E. now exists total, fs.
Qed.

(** [download_video] reads no input and makes no extraction call; the
    directory is recorded in any case. *)
Lemma download_video_frame (h : Host) (v : option str) (save_path : str)
    (s : Machine) :
  calls (snd (download_video h v save_path s)) = calls s /\
  stdin (snd (download_video h v save_path s)) = stdin s /\
  made (snd (download_video h v save_path s)) = save_path :: made s /\
  (makedirs h save_path = inr tt ->
   requested (snd (download_video h v save_path s)) = v :: requested s).
Proof.
  unfold_io.
  destruct (makedirs h save_path) as [e0|[]]; cbn.
  { repeat split. discriminate. }
  destruct (stream_get h v) as [[m|]|r]; cbn; try (repeat split; fail).
  destruct (raise_for_status r) as [[m|]|[]]; cbn; try (repeat split; fail).
  destruct (content_length r) as [[m|]|total]; cbn;
    try (repeat split; fail).
  destruct (open_wb h _) as [[m|]|[]]; cbn; try (repeat split; fail).
  destruct (total =? 0)%Z.
  - destruct (content r) as [[m|]|d]; cbn; repeat split.
  - match goal with |- context [write_chunks ?p ?c ?n ?st] =>
      destruct (write_chunks_frame p c n st) as (tot & fs & E) end.
    rewrite E. cbn.
    destruct (chunks_end r) as [[m|]|]; cbn; repeat split.
Qed.

(** X16.  [safe_download_example] returns [True] only when the
    extraction succeeded, the first line read answers [y] (after
    stripping and lower-casing), and [download_video], called with the
    extracted URL and the directory of the second line, returned a
    path. *)
Theorem download_needs_success_and_consent (h : Host) (w : World)
    (share_url : str) (s s' : Machine) :
  safe_download_example h w share_url s = (inr true, s') ->
  exists info log line line' rest path,
    get_video_info w share_url (calls s) = (inr info, log) /\
    success info = true /\
    stdin s = line :: line' :: rest /\
    lower h (strip line) = lit "y" /\
    download_video h (video_url info) (chosen_directory line')
      (with_stdin (with_calls s log) rest) = (inr (Some path), s') /\
    path <> [].
Proof.
  destruct (get_video_info w share_url (calls s)) as [[e|info] log] eqn:E.
  - rewrite (safe_download_example_raises _ _ _ _ _ _ E). discriminate.
  - rewrite (safe_download_example_cases _ _ _ _ _ _ E).
    destruct (success info) eqn:Hok; cbn [negb]; [|discriminate].
    destruct (stdin s) as [|line [|line' rest]] eqn:Hin; try discriminate.
    + destruct (str_eqb (lower h (strip line)) (lit "y")); discriminate.
    + destruct (str_eqb (lower h (strip line)) (lit "y")) eqn:Hy;
        cbn [negb]; [|discriminate].
      apply str_eqb_eq in Hy.
      destruct (download_video h (video_url info) (chosen_directory line')
                  (with_stdin (with_calls s log) rest))
        as [[e|result] s2] eqn:Ed; [discriminate|].
      destruct result as [[|c path]|]; cbn; try discriminate.
      intros H; inversion H; subst.
      exists info, log, line, line', rest, (c :: path).
      repeat split; auto. discriminate.
Qed.

(** X17.  Without success or without consent nothing is downloaded.
    When the extraction fails, [safe_download_example] returns [False]
    and reads no input; when the answer is not [y], it returns [False]
    after reading that one line.  In both cases no directory is made, no
    URL is requested and no file is written. *)
Theorem no_download_without_consent (h : Host) (w : World)
    (share_url : str) (s : Machine) (info : VideoInfo) (log : list event) :
  get_video_info w share_url (calls s) = (inr info, log) ->
  (success info = false ->
   exists s',
     safe_download_example h w share_url s = (inr false, s') /\
     stdin s' = stdin s /\ untouched s s') /\
  (forall line rest,
      success info = true ->
      stdin s = line :: rest ->
      lower h (strip line) <> lit "y" ->
      exists s',
        safe_download_example h w share_url s = (inr false, s') /\
        stdin s' = rest /\ untouched s s').
Proof.
  intros E. rewrite (safe_download_example_cases _ _ _ _ _ _ E). split.
  - intros ->. cbn [negb]. eexists. split; [reflexivity|].
    repeat split.
  - intros line rest -> -> Hy. cbn [negb].
    apply str_eqb_neq in Hy. rewrite Hy. cbn [negb].
    eexists. split; [reflexivity|]. repeat split.
Qed.

Lemma download_needs_success_and_consent_witness :
  exists s' info log line line' rest path,
    get_video_info static_world share [] = (inr info, log) /\
    success info = true /\
    [lit " Y "; lit "  "] = line :: line' :: rest /\
    ascii_lower (strip line) = lit "y" /\
    download_video (still_host one_byte) (video_url info)
      (chosen_directory line')
      (with_stdin (with_calls (boot [lit " Y "; lit "  "]) log) rest) =
      (inr (Some path), s') /\
    path <> [].
Proof.
  eexists.
  apply (download_needs_success_and_consent (still_host one_byte)
           static_world share (boot [lit " Y "; lit "  "])).
  cbv. reflexivity.
Defined.

Lemma no_download_without_consent_witness :
  exists s',
    safe_download_example (still_host one_byte) static_world share
      (boot [lit "n"; lit "videos"]) = (inr false, s') /\
    stdin s' = [lit "videos"] /\
    untouched (boot [lit "n"; lit "videos"]) s'.
Proof.
  refine (proj2 (no_download_without_consent (still_host one_byte)
                   static_world share (boot [lit "n"; lit "videos"])
                   (mkVideoInfo (lit "clip")
                      (Some (lit "https://v.example.com/video/a.mp4"))
                      true None)
                   [EvGet share] _)
            (lit "n") [lit "videos"] _ _ _).
  - vm_compute. reflexivity.
  - reflexivity.
  - reflexivity.
  - vm_compute. discriminate.
Defined.

Lemma lstrip_spaces (a : str) : forallb is_space a = true -> lstrip a = [].
Proof.
  induction a as [|c a IH]; [reflexivity|]. simpl.
  intros H. apply andb_prop in H as [Hc Ha]. now rewrite Hc, (IH Ha).
Qed.

Lemma strip_spaces (a : str) : forallb is_space a = true -> strip a = [].
Proof. intros H. unfold strip. now rewrite (lstrip_spaces _ H). Qed.

(** X18.  Once the extraction succeeded and the user agreed, the
    download is started with the URL that was extracted and with the
    directory typed on the second line, stripped; when that line is
    empty or blank the directory is [downloads].  Two lines have been
    read. *)
Theorem directory_and_url_passed_on (h : Host) (w : World)
    (share_url : str) (s : Machine) (info : VideoInfo) (log : list event)
    (line line' : str) (rest : list str) :
  get_video_info w share_url (calls s) = (inr info, log) ->
  success info = true ->
  stdin s = line :: line' :: rest ->
  lower h (strip line) = lit "y" ->
  made (snd (safe_download_example h w share_url s)) =
    chosen_directory line' :: made s /\
  (forallb is_space line' = true -> chosen_directory line' = lit "downloads") /\
  (makedirs h (chosen_directory line') = inr tt ->
   requested (snd (safe_download_example h w share_url s)) =
     video_url info :: requested s) /\
  stdin (snd (safe_download_example h w share_url s)) = rest.
Proof.
  intros E Hok Hin Hy.
  rewrite (safe_download_example_cases _ _ _ _ _ _ E), Hok, Hin, Hy.
  cbn [negb str_eqb]. rewrite str_eqb_refl. cbn [negb].
  pose proof (download_video_frame h (video_url info)
                (chosen_directory line')
                (with_stdin (with_calls s log) rest)) as (_ & F2 & F3 & F4).
  destruct (download_video h (video_url info) (chosen_directory line')
              (with_stdin (with_calls s log) rest)) as [[e|result] s2];
    cbn [snd] in *.
  - repeat split; auto. intros Hb. unfold chosen_directory.
    now rewrite (strip_spaces _ Hb).
  - repeat split; auto. intros Hb. unfold chosen_directory.
    now rewrite (strip_spaces _ Hb).
Qed.

Lemma directory_and_url_passed_on_witness :
  made (snd (safe_download_example (still_host one_byte) static_world share
               (boot [lit " Y "; lit "  "]))) = [lit "downloads"] /\
  requested (snd (safe_download_example (still_host one_byte) static_world
                    share (boot [lit " Y "; lit "  "]))) =
    [Some (lit "https://v.example.com/video/a.mp4")].
Proof.
  destruct (directory_and_url_passed_on (still_host one_byte) static_world
              share (boot [lit " Y "; lit "  "])
              (mkVideoInfo (lit "clip")
                 (Some (lit "https://v.example.com/video/a.mp4")) true None)
              [EvGet share] (lit " Y ") (lit "  ") [])
    as (H1 & H2 & H3 & _).
  - vm_compute. reflexivity.
  - reflexivity.
  - reflexivity.
  - vm_compute. reflexivity.
  - split.
    + rewrite H1, H2; reflexivity.
    + rewrite H3; reflexivity.
Defined.

(** ** [main] *)

Lemma main_loop_step (k : nat) (h : Host) (w : World) (s : Machine) :
  main_loop (S k) h w s =
  match stdin s with
  | [] => (inl OtherException, s)
  | line :: rest =>
      if str_eqb (strip line) (lit "1") then
        match rest with
        | [] => (inl OtherException, with_stdin s [])
        | line' :: rest' =>
            match strip line' with
            | [] => main_loop k h w (with_stdin s rest')
            | c :: p =>
                match safe_download_example h w (c :: p)
                        (with_stdin s rest') with
                | (inl e, s') => (inl e, s')
                | (inr _, s') => main_loop k h w s'
                end
            end
        end
      else if str_eqb (strip line) (lit "2")
      then main_loop k h w (with_stdin s rest)
      else if str_eqb (strip line) (lit "3")
      then (inr (Some tt), with_stdin s rest)
      else main_loop k h w (with_stdin s rest)
  end.
Proof.
  destruct s as [c0 lines fs ms rs n].
  cbn [main_loop]. unfold io_bind, input, io_ret, with_stdin.
  cbv zeta. cbn [calls stdin files made requested clock_reads].
  destruct lines as [|line rest]; [reflexivity|].
  destruct (str_eqb (strip line) (lit "1")).
  - cbn [calls stdin files made requested clock_reads].
    destruct rest as [|line' rest']; [reflexivity|].
    destruct (strip line') as [|c p]; reflexivity.
  - destruct (str_eqb (strip line) (lit "2")); [reflexivity|].
    destruct (str_eqb (strip line) (lit "3")); reflexivity.
Qed.

(** [safe_download_example] only consumes input: what is left to read
    is a final part of what there was. *)
Lemma safe_download_example_input (h : Host) (w : World) (share_url : str)
    (s : Machine) :
  exists used,
    stdin s = used ++ stdin (snd (safe_download_example h w share_url s)).
Proof.
  destruct (get_video_info w share_url (calls s)) as [[e|info] log] eqn:E.
  - rewrite (safe_download_example_raises _ _ _ _ _ _ E). now exists [].
  - rewrite (safe_download_example_cases _ _ _ _ _ _ E).
    destruct s as [c0 lines fs ms rs n]. unfold with_calls, with_stdin.
    cbn [calls stdin files made requested clock_reads].
    destruct (negb (success info)); [now exists []|].
    destruct lines as [|line rest]; [now exists []|].
    destruct (negb (str_eqb (lower h (strip line)) (lit "y")));
      [now exists [line]|].
    destruct rest as [|line' rest']; [now exists [line]|].
    match goal with |- context [download_video ?a ?b ?c ?d] =>
      pose proof (download_video_frame a b c d) as (_ & F2 & _);
      destruct (download_video a b c d) as [[e|result] s2] end;
      cbn [snd stdin] in *; rewrite F2; now exists [line; line'].
Qed.

Lemma main_loop_enough (h : Host) (w : World) (fuel : nat) (s : Machine) :
  (List.length (stdin s) < fuel)%nat ->
  fst (main_loop fuel h w s) <> inr None.
Proof.
  revert s; induction fuel as [|k IH]; intros s Hlt; [lia|].
  rewrite main_loop_step.
  destruct (stdin s) as [|line rest] eqn:Hin; [discriminate|].
  simpl in Hlt.
  destruct (str_eqb (strip line) (lit "1")).
  - destruct rest as [|line' rest']; [discriminate|]. simpl in Hlt.
    destruct (strip line') as [|c p].
    + apply IH. cbn. lia.
    + destruct (safe_download_example_input h w (c :: p)
                  (with_stdin s rest')) as [used Hu].
      destruct (safe_download_example h w (c :: p) (with_stdin s rest'))
        as [[e|b] s']; [discriminate|].
      apply IH. cbn [snd with_stdin stdin] in Hu.
      apply (f_equal (@List.length str)) in Hu. rewrite length_app in Hu. lia.
  - destruct (str_eqb (strip line) (lit "2")); [apply IH; cbn; lia|].
    destruct (str_eqb (strip line) (lit "3")); [discriminate|].
    apply IH; cbn; lia.
Qed.

Lemma main_loop_fuel (h : Host) (w : World) (fuel1 fuel2 : nat)
    (s : Machine) :
  (List.length (stdin s) < fuel1)%nat ->
  (List.length (stdin s) < fuel2)%nat ->
  main_loop fuel1 h w s = main_loop fuel2 h w s.
Proof.
  revert fuel2 s; induction fuel1 as [|k IH]; intros fuel2 s H1 H2; [lia|].
  destruct fuel2 as [|k2]; [lia|].
  rewrite !main_loop_step.
  destruct (stdin s) as [|line rest] eqn:Hin; [reflexivity|].
  simpl in H1, H2.
  destruct (str_eqb (strip line) (lit "1")).
  - destruct rest as [|line' rest']; [reflexivity|]. simpl in H1, H2.
    destruct (strip line') as [|c p].
    + apply IH; cbn; lia.
    + destruct (safe_download_example_input h w (c :: p)
                  (with_stdin s rest')) as [used Hu].
      destruct (safe_download_example h w (c :: p) (with_stdin s rest'))
        as [[e|b] s']; [reflexivity|].
      cbn [snd with_stdin stdin] in Hu.
      apply (f_equal (@List.length str)) in Hu. rewrite length_app in Hu.
      apply IH; lia.
  - destruct (str_eqb (strip line) (lit "2")); [apply IH; cbn; lia|].
    destruct (str_eqb (strip line) (lit "3")); [reflexivity|].
    apply IH; cbn; lia.
Qed.

(** X19.  [main] ends on every finite input: each turn of its loop reads
    at least one line, so with one turn more than there are lines the
    loop is left by [break] or by an exception (the [EOFError] of [input]
    at the latest), and more turns change nothing. *)
Theorem main_ends (h : Host) (w : World) (s : Machine) :
  fst (main h w s) <> inr None /\
  forall fuel,
    (List.length (stdin s) < fuel)%nat ->
    main_loop fuel h w s = main h w s.
Proof.
  split.
  - apply main_loop_enough. lia.
  - intros fuel H. apply main_loop_fuel; [exact H|lia].
Qed.

Lemma main_ends_witness :
  main_loop 10 (still_host one_byte) static_world
    (boot [lit "2"; lit " 3 "; lit "1"]) =
  main (still_host one_byte) static_world
    (boot [lit "2"; lit " 3 "; lit "1"]).
Proof.
  apply (proj2 (main_ends (still_host one_byte) static_world
                  (boot [lit "2"; lit " 3 "; lit "1"]))).
  cbn. lia.
Defined.

(** X20.  [main] returns only through choice 3: when it returns, one of
    the lines of the input is [3] up to surrounding white space.
    Otherwise it ends with an exception. *)
Theorem main_returns_on_3_only (h : Host) (w : World) (s : Machine) :
  fst (main h w s) = inr (Some tt) ->
  exists line, In line (stdin s) /\ strip line = lit "3".
Proof.
  unfold main. generalize (S (List.length (stdin s))) as fuel.
  intros fuel. revert s. induction fuel as [|k IH]; intros s; [discriminate|].
  rewrite main_loop_step.
  destruct (stdin s) as [|line rest] eqn:Hin; [discriminate|].
  destruct (str_eqb (strip line) (lit "1")).
  - destruct rest as [|line' rest']; [discriminate|].
    destruct (strip line') as [|c p].
    + intros H. destruct (IH _ H) as (l & Hl & Hs).
      exists l. split; [|exact Hs]. cbn in Hl. simpl. auto.
    + destruct (safe_download_example_input h w (c :: p)
                  (with_stdin s rest')) as [used Hu].
      destruct (safe_download_example h w (c :: p) (with_stdin s rest'))
        as [[e|b] s']; [discriminate|].
      intros H. destruct (IH _ H) as (l & Hl & Hs).
      exists l. split; [|exact Hs].
      cbn [snd with_stdin stdin] in Hu. rewrite Hu.
      simpl. right. right. apply in_or_app. now right.
  - destruct (str_eqb (strip line) (lit "2")).
    { intros H. destruct (IH _ H) as (l & Hl & Hs).
      exists l. split; [|exact Hs]. cbn in Hl. simpl. auto. }
    destruct (str_eqb (strip line) (lit "3")) eqn:E3.
    { intros _. exists line. split; [simpl; auto|].
      now apply str_eqb_eq. }
    intros H. destruct (IH _ H) as (l & Hl & Hs).
    exists l. split; [|exact Hs]. cbn in Hl. simpl. auto.
Qed.

Lemma main_returns_on_3_only_witness :
  exists line,
    In line [lit "2"; lit " 3 "; lit "1"] /\ strip line = lit "3".
Proof.
  apply (main_returns_on_3_only (still_host one_byte) static_world
           (boot [lit "2"; lit " 3 "; lit "1"])).
  vm_compute. reflexivity.
Defined.

(** X21.  Unless choice 1 is made, [main] does nothing outside its
    dialogue: when no line of the input is [1] up to white space, no
    page is fetched, no directory made, no URL requested and no file
    written. *)
Theorem main_idle_without_choice_1 (h : Host) (w : World) (s : Machine) :
  (forall line, In line (stdin s) -> strip line <> lit "1") ->
  calls (snd (main h w s)) = calls s /\
  untouched s (snd (main h w s)).
Proof.
  unfold main. generalize (S (List.length (stdin s))) as fuel.
  intros fuel. revert s. induction fuel as [|k IH]; intros s Hno.
  - cbn. repeat split.
  - rewrite main_loop_step.
    destruct (stdin s) as [|line rest] eqn:Hin; [cbn; repeat split|].
    assert (H1 : str_eqb (strip line) (lit "1") = false).
    { apply str_eqb_neq. apply Hno. now left. }
    rewrite H1.
    assert (Hrest : calls (snd (main_loop k h w (with_stdin s rest))) = calls s /\
                    untouched s (snd (main_loop k h w (with_stdin s rest)))).
    { destruct (IH (with_stdin s rest)) as (C & F & M' & R & T).
      - intros l Hl. apply Hno. right. exact Hl.
      - repeat split; assumption. }
    destruct (str_eqb (strip line) (lit "2")); [exact Hrest|].
    destruct (str_eqb (strip line) (lit "3")); [cbn; repeat split|].
    exact Hrest.
Qed.

Lemma main_idle_without_choice_1_witness :
  calls (snd (main (still_host one_byte) static_world
                (boot [lit "2"; lit "x"; lit " 3 "]))) = [] /\
  untouched (boot [lit "2"; lit "x"; lit " 3 "])
    (snd (main (still_host one_byte) static_world
            (boot [lit "2"; lit "x"; lit " 3 "]))).
Proof.
  apply (main_idle_without_choice_1 (still_host one_byte) static_world
           (boot [lit "2"; lit "x"; lit " 3 "])).
  intros line [<- | [<- | [<- | []]]]; vm_compute; discriminate.
Defined.
